(** * Event queues (src/events.c): a shallow embedding and its properties

    The queue of [events.c] is a circular array of event records kept in an
    [_AL_VECTOR], together with a vector of registered event sources.  This
    file embeds the functions of [events.c] as executable Rocq functions and
    proves the properties the specification states about them.

    Conventions of the embedding.

    - A C function that mutates the queue becomes a function that takes the
      queue and returns the new one.  The mutex and the condition variable
      are not part of the state: the model follows one thread, for which
      [_al_mutex_lock] and [_al_mutex_unlock] do nothing.
    - A result in [option] is [None] when the C code would leave defined
      behaviour: an index outside its vector, a remainder by zero, or a
      [while] loop that never ends (the loop model runs out of fuel).
    - [ASSERT] is compiled out (the release build); what the code does after
      a failed assertion is what the model does.
    - Allocation always succeeds and sizes are natural numbers: the
      conversions among [int], [unsigned int] and [size_t] in the source
      are the identity as long as the array has fewer than [2^31] slots.
    - A pointer into a vector is the index of its slot; a pointer to a
      caller's [ALLEGRO_EVENT] buffer is [Some contents], and [NULL] is
      [None]. *)

From Stdlib Require Import ZArith Lia.
From Stdlib Require Import Floats.
From stdpp Require Import base numbers option list.

Open Scope nat_scope.

(** ** Data model *)

(** Address of an [ALLEGRO_EVENT_SOURCE]. *)
Abbreviation source_ptr := Z (only parsing).

(** Modelled from the spec: the declaration of [ALLEGRO_EVENT] is in a header
    that is not part of the sources at hand.  Every variant carries an
    identifying tag and a reference to its originating source
    ([event->any.source] in [events.c]); the rest of the record is opaque
    payload. *)
Record ALLEGRO_EVENT : Type := mk_event {
  any_type : Z;
  any_source : source_ptr;
  any_payload : list Z
}.

(** ** The vector primitive *)

Section Vector.
Context {A : Type}.

(** [_AL_VECTOR] is the generic dynamic array, an external primitive with
    amortised doubling of its storage.  Its functions are not in
    [events.c]; they are modelled on a list of the items, which is how
    [events.c] uses them: [_al_vector_size] counts the items and each
    [_al_vector_alloc_back] adds exactly one (the loops of
    [expand_events_array] and [discard_events_of_source] rely on both). *)

(** Modelled from the spec: [_al_vector_init], the vector without items. *)
Definition _al_vector_init : list A := [].

(** Modelled from the spec: [_al_vector_size], the number of items. *)
Definition _al_vector_size (vec : list A) : nat := length vec.

(** Modelled from the spec: [_al_vector_alloc_back] appends one slot and
    returns a pointer to it (here: the vector and the pointer).  The C slot
    is uninitialised; [junk] stands for what it holds. *)
Definition _al_vector_alloc_back (junk : A) (vec : list A) : list A * nat :=
  (vec ++ [junk], length vec).

(** Modelled from the spec: [_al_vector_ref], the pointer to the slot
    [idx], which must exist. *)
Definition _al_vector_ref (vec : list A) (idx : nat) : option nat :=
  if decide (idx < length vec) then Some idx else None.

(** [*p] read and [*p = x] on a slot pointer. *)
Definition load (vec : list A) (p : nat) : option A := vec !! p.

Definition store (vec : list A) (p : nat) (x : A) : option (list A) :=
  if decide (p < length vec) then Some (<[p:=x]> vec) else None.

Context `{EqDecision A}.

(** Modelled from the spec: [_al_vector_contains] tells whether an item
    equal to [x] is in the vector. *)
Definition _al_vector_contains (vec : list A) (x : A) : bool :=
  bool_decide (x ∈ vec).

(** Modelled from the spec: [_al_vector_find_and_delete] deletes the first
    item equal to [x] and tells whether there was one. *)
Fixpoint _al_vector_find_and_delete (vec : list A) (x : A) : bool * list A :=
  match vec with
  | [] => (false, [])
  | y :: vec' =>
      if decide (y = x) then (true, vec')
      else let '(found, rest) := _al_vector_find_and_delete vec' x in
           (found, y :: rest)
  end.
End Vector.

(** A [for (i = lo; i < hi; i++) body] loop whose bounds the body does not
    change. *)
Fixpoint for_loop {St : Type} (n i : nat) (body : nat → St → option St)
  (s : St) : option St :=
  match n with
  | 0 => Some s
  | S n' => s' ← body i s; for_loop n' (S i) body s'
  end.

Definition for_range {St : Type} (lo hi : nat)
  (body : nat → St → option St) (s : St) : option St :=
  for_loop (hi - lo) lo body s.

(** ** The queue *)

Record ALLEGRO_EVENT_QUEUE : Type := mk_queue {
  sources : list source_ptr;      (* vector of pointers to event sources *)
  events : list ALLEGRO_EVENT;    (* vector of ALLEGRO_EVENT, circular array *)
  events_head : nat;              (* write end of circular array *)
  events_tail : nat               (* read end of circular array *)
}.

Definition set_sources (q : ALLEGRO_EVENT_QUEUE) (v : list source_ptr) :=
  mk_queue v (events q) (events_head q) (events_tail q).
Definition set_events (q : ALLEGRO_EVENT_QUEUE) (v : list ALLEGRO_EVENT) :=
  mk_queue (sources q) v (events_head q) (events_tail q).
Definition set_head (q : ALLEGRO_EVENT_QUEUE) (h : nat) :=
  mk_queue (sources q) (events q) h (events_tail q).
Definition set_tail (q : ALLEGRO_EVENT_QUEUE) (t : nat) :=
  mk_queue (sources q) (events q) (events_head q) t.

(** Calls that leave the queue for an event source, in the order made. *)
Inductive callout : Type :=
  | on_registration_to_queue (source : source_ptr)
  | on_unregistration_from_queue (source : source_ptr).

(** [*dest = *src]: the value that ends up in [*dest]. *)
Definition copy_event (src : ALLEGRO_EVENT) : ALLEGRO_EVENT := src.

Definition circ_array_next {A} (vector : list A) (i : nat) : option nat :=
  if decide (_al_vector_size vector = 0) then None
  else Some ((i + 1) mod _al_vector_size vector).

Definition al_event_queue_is_empty (q : ALLEGRO_EVENT_QUEUE) : bool :=
  bool_decide (events_head q = events_tail q).

(** Helper to get smallest fitting power of two:
    [y = 1; while (y < x) y *= 2;].  [y] doubles, so [x] rounds are more
    than the loop can take; [pot_fits] below shows that the loop has left
    through its test. *)
Fixpoint pot_loop (fuel x y : nat) : nat :=
  match fuel with
  | 0 => y
  | S fuel' => if decide (y < x) then pot_loop fuel' x (y * 2) else y
  end.

Definition pot (x : nat) : nat := pot_loop x x 1.

Section Queue.
(** What an uninitialised event slot holds. *)
Variable indeterminate : ALLEGRO_EVENT.

Definition al_create_event_queue : ALLEGRO_EVENT_QUEUE :=
  let sources := _al_vector_init in
  let events := _al_vector_init in
  let '(events, _) := _al_vector_alloc_back indeterminate events in
  {| sources := sources; events := events;
     events_head := 0; events_tail := 0 |}.

Definition al_register_event_source (q : ALLEGRO_EVENT_QUEUE)
  (source : source_ptr) : ALLEGRO_EVENT_QUEUE * list callout :=
  if negb (_al_vector_contains (sources q) source) then
    let '(v, slot) := _al_vector_alloc_back 0%Z (sources q) in
    (set_sources q (<[slot:=source]> v), [on_registration_to_queue source])
  else (q, []).

(** Returns a pointer to the next event in the queue, or NULL; optionally
    the event is removed from the queue. *)
Definition get_next_event_if_any (q : ALLEGRO_EVENT_QUEUE) (delete : bool)
  : option (option nat * ALLEGRO_EVENT_QUEUE) :=
  if al_event_queue_is_empty q then Some (None, q)
  else
    event ← _al_vector_ref (events q) (events_tail q);
    if delete then
      tail ← circ_array_next (events q) (events_tail q);
      Some (Some event, set_tail q tail)
    else Some (Some event, q).

(** The result is the returned flag, the caller's buffer [do_copy] after
    the call and the queue after the call. *)
Definition get_peek_or_drop_next_event (q : ALLEGRO_EVENT_QUEUE)
  (do_copy : option ALLEGRO_EVENT) (delete : bool)
  : option (bool * option ALLEGRO_EVENT * ALLEGRO_EVENT_QUEUE) :=
  '(next_event, q) ← get_next_event_if_any q delete;
  match next_event with
  | Some p =>
      match do_copy with
      | Some _ =>
          ev ← load (events q) p;
          Some (true, Some (copy_event ev), q)
      | None => Some (true, None, q)
      end
  | None => Some (false, do_copy, q)
  end.

Definition al_get_next_event (q : ALLEGRO_EVENT_QUEUE)
  (ret_event : option ALLEGRO_EVENT) :=
  get_peek_or_drop_next_event q ret_event true.

Definition al_peek_next_event (q : ALLEGRO_EVENT_QUEUE)
  (ret_event : option ALLEGRO_EVENT) :=
  get_peek_or_drop_next_event q ret_event false.

Definition al_drop_next_event (q : ALLEGRO_EVENT_QUEUE)
  : option ALLEGRO_EVENT_QUEUE :=
  '(_, _, q) ← get_peek_or_drop_next_event q None true;
  Some q.

Definition al_flush_event_queue (q : ALLEGRO_EVENT_QUEUE)
  : ALLEGRO_EVENT_QUEUE :=
  set_head (set_tail q 0) 0.

(** Expand the circular array holding events. *)
Definition expand_events_array (q : ALLEGRO_EVENT_QUEUE)
  : option ALLEGRO_EVENT_QUEUE :=
  let old_size := _al_vector_size (events q) in
  let new_size := old_size * 2 in
  q ← for_range old_size new_size
        (λ _ q, Some (set_events q
                        (_al_vector_alloc_back indeterminate (events q)).1))
        q;
  (* Move wrapped-around elements at the start of the array to the back. *)
  if decide (events_head q < events_tail q) then
    q ← for_range 0 (events_head q)
          (λ i q,
             old_ev ← _al_vector_ref (events q) i;
             new_ev ← _al_vector_ref (events q) (old_size + i);
             ev ← load (events q) old_ev;
             evs ← store (events q) new_ev (copy_event ev);
             Some (set_events q evs))
          q;
    Some (set_head q (events_head q + old_size))
  else Some q.

(** The result is the pointer to the allocated slot and the queue. *)
Definition alloc_event (q : ALLEGRO_EVENT_QUEUE)
  : option (nat * ALLEGRO_EVENT_QUEUE) :=
  adv_head ← circ_array_next (events q) (events_head q);
  '(adv_head, q) ←
    (if decide (adv_head = events_tail q) then
       q ← expand_events_array q;
       adv_head ← circ_array_next (events q) (events_head q);
       Some (adv_head, q)
     else Some (adv_head, q));
  event ← _al_vector_ref (events q) (events_head q);
  Some (event, set_head q adv_head).

(** The broadcast on the condition variable wakes other threads and
    leaves the queue as it is. *)
Definition _al_event_queue_push_event (q : ALLEGRO_EVENT_QUEUE)
  (orig_event : ALLEGRO_EVENT) : option ALLEGRO_EVENT_QUEUE :=
  '(new_event, q) ← alloc_event q;
  evs ← store (events q) new_event (copy_event orig_event);
  Some (set_events q evs).

(** The [while (i != queue->events_head)] loops walk the circular array
    from [i].  Among any [size] successive indices every slot occurs, so
    a walk that has not ended after [size + 1] tests never ends. *)
Definition scan_fuel {A} (vec : list A) : nat := S (_al_vector_size vec).

Fixpoint contains_event_of_source_loop (fuel : nat)
  (q : ALLEGRO_EVENT_QUEUE) (source : source_ptr) (i : nat) : option bool :=
  match fuel with
  | 0 => None
  | S fuel' =>
      if decide (i ≠ events_head q) then
        p ← _al_vector_ref (events q) i;
        event ← load (events q) p;
        if decide (any_source event = source) then Some true
        else
          i ← circ_array_next (events q) i;
          contains_event_of_source_loop fuel' q source i
      else Some false
  end.

(** Return true iff the event queue contains an event from the given
    source. *)
Definition contains_event_of_source (q : ALLEGRO_EVENT_QUEUE)
  (source : source_ptr) : option bool :=
  contains_event_of_source_loop (scan_fuel (events q)) q source
    (events_tail q).

(** The copying loop of [discard_events_of_source]: [q] is the queue with
    the new vector being filled, [old_events] the vector walked. *)
Fixpoint discard_loop (fuel : nat) (old_events : list ALLEGRO_EVENT)
  (source : source_ptr) (q : ALLEGRO_EVENT_QUEUE) (i : nat)
  : option ALLEGRO_EVENT_QUEUE :=
  match fuel with
  | 0 => None
  | S fuel' =>
      if decide (i ≠ events_head q) then
        p ← _al_vector_ref old_events i;
        old_event ← load old_events p;
        q ← (if decide (any_source old_event ≠ source) then
               let '(v, new_event) :=
                 _al_vector_alloc_back indeterminate (events q) in
               v ← store v new_event (copy_event old_event);
               Some (set_events q v)
             else Some q);
        i ← circ_array_next old_events i;
        discard_loop fuel' old_events source q i
      else Some q
  end.

(** Discard all the events in the queue that belong to the source. *)
Definition discard_events_of_source (q : ALLEGRO_EVENT_QUEUE)
  (source : source_ptr) : option ALLEGRO_EVENT_QUEUE :=
  found ← contains_event_of_source q source;
  if negb found then Some q
  else
    (* Copy elements we want to keep from the old vector to a new one. *)
    let old_events := events q in
    let q := set_events q _al_vector_init in
    q ← discard_loop (scan_fuel old_events) old_events source q
          (events_tail q);
    let q := set_tail q 0 in
    let q := set_head q (_al_vector_size (events q)) in
    (* The circular array always needs at least one unused element. *)
    let old_size := _al_vector_size (events q) in
    let new_size := pot (old_size + 1) in
    for_range old_size new_size
      (λ _ q, Some (set_events q
                      (_al_vector_alloc_back indeterminate (events q)).1))
      q.

Definition al_unregister_event_source (q : ALLEGRO_EVENT_QUEUE)
  (source : source_ptr) : option (ALLEGRO_EVENT_QUEUE * list callout) :=
  (* Remove source from our list. *)
  let '(found, v) := _al_vector_find_and_delete (sources q) source in
  let q := set_sources q v in
  if found then
    (* Tell the event source that it was unregistered, then drop all the
       events in the queue that belonged to the source. *)
    q ← discard_events_of_source q source;
    Some (q, [on_unregistration_from_queue source])
  else Some (q, []).
End Queue.

(** ** Timed wait *)

(** Modelled from the spec: [ALLEGRO_TIMEOUT] and [al_init_timeout] are
    declared outside [events.c].  A timeout is a deadline computed once, at
    call entry, from a relative duration; the model keeps the duration the
    deadline was computed from. *)
Record ALLEGRO_TIMEOUT : Type := mk_timeout { timeout_secs : float }.

Definition al_init_timeout (seconds : float) : ALLEGRO_TIMEOUT :=
  mk_timeout seconds.

Section Wait.
(** [_al_cond_timedwait] releases the mutex, parks the thread and takes
    the mutex again: what it reports (0, or -1 once the deadline has
    passed) and the queue as the other threads have left it are the
    environment's.  Its arguments are the timeout, the number of waits
    this call has made before, and the queue at the time of waiting. *)
Variable _al_cond_timedwait :
  ALLEGRO_TIMEOUT → nat → ALLEGRO_EVENT_QUEUE → Z * ALLEGRO_EVENT_QUEUE.

(** [while (al_event_queue_is_empty(queue) && (result != -1))]; the
    result carries the number of waits made. *)
Fixpoint do_wait_loop (fuel : nat) (timeout : ALLEGRO_TIMEOUT)
  (q : ALLEGRO_EVENT_QUEUE) (result : Z) (waits : nat)
  : option (Z * ALLEGRO_EVENT_QUEUE * nat) :=
  match fuel with
  | 0 => None
  | S fuel' =>
      if al_event_queue_is_empty q && negb (result =? -1)%Z then
        let '(result, q) := _al_cond_timedwait timeout waits q in
        do_wait_loop fuel' timeout q result (S waits)
      else Some (result, q, waits)
  end.

(** The result is the returned flag, the caller's buffer after the call,
    the queue after the call and the number of waits made. *)
Definition do_wait_for_event (fuel : nat) (q : ALLEGRO_EVENT_QUEUE)
  (ret_event : option ALLEGRO_EVENT) (timeout : ALLEGRO_TIMEOUT)
  : option (bool * option ALLEGRO_EVENT * ALLEGRO_EVENT_QUEUE * nat) :=
  '(result, q, waits) ← do_wait_loop fuel timeout q 0%Z 0;
  if (result =? -1)%Z then Some (false, ret_event, q, waits)
  else
    match ret_event with
    | Some _ =>
        '(next_event, q) ← get_next_event_if_any q true;
        p ← next_event;
        ev ← load (events q) p;
        Some (true, Some (copy_event ev), q, waits)
    | None => Some (true, None, q, waits)
    end.

Definition al_wait_for_event_timed (fuel : nat) (q : ALLEGRO_EVENT_QUEUE)
  (ret_event : option ALLEGRO_EVENT) (secs : float) :=
  let timeout :=
    if (secs <? 0)%float then al_init_timeout 0%float
    else al_init_timeout secs in
  do_wait_for_event fuel q ret_event timeout.
End Wait.

(** ** Runs of pushes and gets *)

Section Runs.
Variable indeterminate : ALLEGRO_EVENT.

(** [push(e1); push(e2); ...; push(en)]. *)
Fixpoint push_events (q : ALLEGRO_EVENT_QUEUE) (es : list ALLEGRO_EVENT)
  : option ALLEGRO_EVENT_QUEUE :=
  match es with
  | [] => Some q
  | e :: es' =>
      q ← _al_event_queue_push_event indeterminate q e;
      push_events q es'
  end.

(** [n] successive calls of [al_get_next_event] on the buffer [buf]: what
    each call returned and left in the buffer, and the queue at the end. *)
Fixpoint get_events (n : nat) (q : ALLEGRO_EVENT_QUEUE)
  (buf : option ALLEGRO_EVENT)
  : option (list (bool * option ALLEGRO_EVENT) * ALLEGRO_EVENT_QUEUE) :=
  match n with
  | 0 => Some ([], q)
  | S n' =>
      '(ok, buf, q) ← al_get_next_event q buf;
      '(rest, q) ← get_events n' q buf;
      Some ((ok, buf) :: rest, q)
  end.
End Runs.

(** ** The circular buffer seen as a list *)

(** The unread events, oldest first: the slots from [events_tail] up to
    [events_head], around the end of the array when the range wraps. *)
Definition live (q : ALLEGRO_EVENT_QUEUE) : list ALLEGRO_EVENT :=
  if decide (events_tail q ≤ events_head q)
  then take (events_head q - events_tail q) (drop (events_tail q) (events q))
  else drop (events_tail q) (events q) ++ take (events_head q) (events q).

(** The capacity [C] of the specification: the size of the array. *)
Abbreviation capacity q := (length (events q)).

Definition is_power_of_two (n : nat) : Prop := ∃ k, n = 2 ^ k.

(** The logical size [(head - tail) mod C] of the specification. *)
Definition logical_size (q : ALLEGRO_EVENT_QUEUE) : Z :=
  ((Z.of_nat (events_head q) - Z.of_nat (events_tail q))
     mod Z.of_nat (capacity q))%Z.

(** The invariant of the circular buffer, as the specification states it. *)
Record circular_buffer_invariant (q : ALLEGRO_EVENT_QUEUE) : Prop := {
  inv_power_of_two : is_power_of_two (capacity q);
  inv_capacity : 1 ≤ capacity q;
  inv_head : events_head q < capacity q;
  inv_tail : events_tail q < capacity q;
  inv_size : (logical_size q ≤ Z.of_nat (capacity q) - 1)%Z
}.

(** What the functions of [events.c] need in order to stay within their
    array: both indices are slots of it. *)
Definition in_range (q : ALLEGRO_EVENT_QUEUE) : Prop :=
  events_head q < capacity q ∧ events_tail q < capacity q.

(** The buffer is full when advancing [events_head] by one would reach
    [events_tail]. *)
Definition is_full (q : ALLEGRO_EVENT_QUEUE) : Prop :=
  (events_head q + 1) mod capacity q = events_tail q.

#[global] Instance is_full_dec (q : ALLEGRO_EVENT_QUEUE) : Decision (is_full q).
Proof. unfold is_full. apply _. Defined.

(** The events a discard keeps. *)
Definition kept (source : source_ptr) (l : list ALLEGRO_EVENT)
  : list ALLEGRO_EVENT :=
  filter (λ e, any_source e ≠ source) l.

(** What [discard_events_of_source] leaves: the queue itself when it holds
    no event of the source, else a fresh array with the kept events in
    front. *)
Definition discarded (junk : ALLEGRO_EVENT) (q : ALLEGRO_EVENT_QUEUE)
  (source : source_ptr) : ALLEGRO_EVENT_QUEUE :=
  if bool_decide (source ∈ any_source <$> live q) then
    let l := kept source (live q) in
    mk_queue (sources q)
      (l ++ replicate (pot (length l + 1) - length l) junk)
      (length l) 0
  else q.

(** ** The operations of the queue, as one type *)

Inductive queue_op : Type :=
  | op_push (e : ALLEGRO_EVENT)
  | op_get (ret_event : option ALLEGRO_EVENT)
  | op_peek (ret_event : option ALLEGRO_EVENT)
  | op_drop
  | op_flush
  | op_discard (source : source_ptr)
  | op_register (source : source_ptr)
  | op_unregister (source : source_ptr).

(** The queue an operation leaves. *)
Definition run_op (junk : ALLEGRO_EVENT) (op : queue_op)
  (q : ALLEGRO_EVENT_QUEUE) : option ALLEGRO_EVENT_QUEUE :=
  match op with
  | op_push e => _al_event_queue_push_event junk q e
  | op_get ret_event => '(_, _, q) ← al_get_next_event q ret_event; Some q
  | op_peek ret_event => '(_, _, q) ← al_peek_next_event q ret_event; Some q
  | op_drop => al_drop_next_event q
  | op_flush => Some (al_flush_event_queue q)
  | op_discard source => discard_events_of_source junk q source
  | op_register source => Some (al_register_event_source q source).1
  | op_unregister source =>
      '(q, _) ← al_unregister_event_source junk q source; Some q
  end.

(** ** Sample events and queues *)

Definition sample_event (source payload : Z) : ALLEGRO_EVENT :=
  mk_event 1 source [payload].

Definition blank_event : ALLEGRO_EVENT := mk_event 0 0 [].

(** Four slots, full, the unread range wrapped around the end: the unread
    events are the slots 2, 3 and 0; the slot 1 still holds an event that
    was taken out. *)
Definition wrapped_queue : ALLEGRO_EVENT_QUEUE :=
  {| sources := [1; 2]%Z;
     events := [sample_event 2 30; sample_event 2 2;
                sample_event 1 10; sample_event 2 20];
     events_head := 1;
     events_tail := 2 |}.

(** A timed wait that reports a timeout at once, without touching the
    queue, when its deadline is not in the future, and a wake-up
    otherwise. *)
Definition prompt_timedwait (timeout : ALLEGRO_TIMEOUT) (waits : nat)
  (q : ALLEGRO_EVENT_QUEUE) : Z * ALLEGRO_EVENT_QUEUE :=
  if (timeout_secs timeout <=? 0)%float then ((-1)%Z, q) else (0%Z, q).

(** A run that ends in [wrapped_queue]. *)
Definition wrapped_queue_run : option ALLEGRO_EVENT_QUEUE :=
  let q := al_create_event_queue blank_event in
  let q := (al_register_event_source q 1).1 in
  let q := (al_register_event_source q 2).1 in
  q ← push_events blank_event q
        [sample_event 1 1; sample_event 2 2; sample_event 1 10];
  '(_, q) ← get_events 2 q (Some blank_event);
  push_events blank_event q [sample_event 2 20; sample_event 2 30].

(** ** Destroying a queue *)

(** Modelled from the spec: [_al_vector_is_nonempty] tells whether the
    vector has an item. *)
Definition _al_vector_is_nonempty {A} (vec : list A) : bool :=
  negb (bool_decide (_al_vector_size vec = 0)).

(** Modelled from the spec: [_al_vector_ref_back], the pointer to the last
    slot, which must exist. *)
Definition _al_vector_ref_back {A} (vec : list A) : option nat :=
  _al_vector_ref vec (_al_vector_size vec - 1).

Section Destroy.
Variable indeterminate : ALLEGRO_EVENT.

(** [while (_al_vector_is_nonempty(&queue->sources))]: every round
    unregisters the source in the last slot, which deletes one item, so the
    loop cannot make more rounds than the registry has items.  [log]
    collects the callouts made. *)
Fixpoint destroy_loop (fuel : nat) (q : ALLEGRO_EVENT_QUEUE)
  (log : list callout) : option (ALLEGRO_EVENT_QUEUE * list callout) :=
  match fuel with
  | 0 => None
  | S fuel' =>
      if _al_vector_is_nonempty (sources q) then
        slot ← _al_vector_ref_back (sources q);
        source ← load (sources q) slot;
        '(q, c) ← al_unregister_event_source indeterminate q source;
        destroy_loop fuel' q (log ++ c)
      else Some (q, log)
  end.

(** The result is the queue as it is when its vectors are freed, which is
    the state the two assertions of the function look at, and the callouts
    made. *)
Definition al_destroy_event_queue (q : ALLEGRO_EVENT_QUEUE)
  : option (ALLEGRO_EVENT_QUEUE * list callout) :=
  (* Unregister any event sources registered with this queue. *)
  destroy_loop (S (_al_vector_size (sources q))) q [].
End Destroy.

(** ** Waiting without a deadline *)

Section WaitForEvent.
(** [_al_cond_wait] releases the mutex, parks the thread and takes the
    mutex again: the queue as the other threads have left it on waking is
    the environment's.  Its arguments are the number of waits this call has
    made before and the queue at the time of waiting. *)
Variable _al_cond_wait : nat → ALLEGRO_EVENT_QUEUE → ALLEGRO_EVENT_QUEUE.

(** [while (al_event_queue_is_empty(queue))]; the result carries the
    number of waits made. *)
Fixpoint wait_loop (fuel : nat) (q : ALLEGRO_EVENT_QUEUE) (waits : nat)
  : option (ALLEGRO_EVENT_QUEUE * nat) :=
  match fuel with
  | 0 => None
  | S fuel' =>
      if al_event_queue_is_empty q then
        wait_loop fuel' (_al_cond_wait waits q) (S waits)
      else Some (q, waits)
  end.

(** The result is the caller's buffer after the call, the queue after the
    call and the number of waits made. *)
Definition al_wait_for_event (fuel : nat) (q : ALLEGRO_EVENT_QUEUE)
  (ret_event : option ALLEGRO_EVENT)
  : option (option ALLEGRO_EVENT * ALLEGRO_EVENT_QUEUE * nat) :=
  '(q, waits) ← wait_loop fuel q 0;
  match ret_event with
  | Some _ =>
      '(next_event, q) ← get_next_event_if_any q true;
      p ← next_event;
      ev ← load (events q) p;
      Some (Some (copy_event ev), q, waits)
  | None => Some (None, q, waits)
  end.

(** The queue the thread finds on waking from its [n]-th wait. *)
Fixpoint woken_queue (n : nat) (q : ALLEGRO_EVENT_QUEUE)
  : ALLEGRO_EVENT_QUEUE :=
  match n with
  | 0 => q
  | S n' => _al_cond_wait n' (woken_queue n' q)
  end.
End WaitForEvent.

Definition al_wait_for_event_until
  (timedwait : ALLEGRO_TIMEOUT → nat → ALLEGRO_EVENT_QUEUE
               → Z * ALLEGRO_EVENT_QUEUE)
  (fuel : nat) (q : ALLEGRO_EVENT_QUEUE)
  (ret_event : option ALLEGRO_EVENT) (timeout : ALLEGRO_TIMEOUT) :=
  do_wait_for_event timedwait fuel q ret_event timeout.

(** What the [n]-th timed wait reported and the queue it left; before the
    first wait the result is 0 and the queue the one passed in. *)
Fixpoint timed_trace
  (timedwait : ALLEGRO_TIMEOUT → nat → ALLEGRO_EVENT_QUEUE
               → Z * ALLEGRO_EVENT_QUEUE)
  (timeout : ALLEGRO_TIMEOUT) (n : nat) (q : ALLEGRO_EVENT_QUEUE)
  : Z * ALLEGRO_EVENT_QUEUE :=
  match n with
  | 0 => (0%Z, q)
  | S n' => timedwait timeout n' (timed_trace timedwait timeout n' q).2
  end.

(** ** Runs of operations and the list they act on *)

Fixpoint run_ops (junk : ALLEGRO_EVENT) (ops : list queue_op)
  (q : ALLEGRO_EVENT_QUEUE) : option ALLEGRO_EVENT_QUEUE :=
  match ops with
  | [] => Some q
  | op :: ops' => q ← run_op junk op q; run_ops junk ops' q
  end.

(** The registry and the unread events as plain lists, and what each
    operation does to them. *)
Definition list_queue_op (op : queue_op)
  (st : list source_ptr * list ALLEGRO_EVENT)
  : list source_ptr * list ALLEGRO_EVENT :=
  let '(srcs, l) := st in
  match op with
  | op_push e => (srcs, l ++ [e])
  | op_get _ => (srcs, drop 1 l)
  | op_peek _ => (srcs, l)
  | op_drop => (srcs, drop 1 l)
  | op_flush => (srcs, [])
  | op_discard source => (srcs, kept source l)
  | op_register source =>
      (if bool_decide (source ∈ srcs) then srcs else srcs ++ [source], l)
  | op_unregister source =>
      if bool_decide (source ∈ srcs)
      then ((_al_vector_find_and_delete srcs source).2, kept source l)
      else (srcs, l)
  end.

(** A timed wait that reports a timeout on waking but leaves an event
    behind, as when a push and the deadline fall together. *)
Definition racing_timedwait (timeout : ALLEGRO_TIMEOUT) (waits : nat)
  (q : ALLEGRO_EVENT_QUEUE) : Z * ALLEGRO_EVENT_QUEUE :=
  ((-1)%Z,
   {| sources := sources q; events := [sample_event 1 10; blank_event];
      events_head := 1; events_tail := 0 |}).

(** A wait that wakes once for nothing and then finds an event pushed. *)
Definition spurious_cond_wait (waits : nat) (q : ALLEGRO_EVENT_QUEUE)
  : ALLEGRO_EVENT_QUEUE :=
  match waits with
  | 0 => q
  | S _ => {| sources := sources q;
              events := [sample_event 1 10; blank_event];
              events_head := 1; events_tail := 0 |}
  end.

(** A timed wait that wakes once for nothing and then finds an event
    pushed, the deadline not yet reached. *)
Definition signalled_timedwait (timeout : ALLEGRO_TIMEOUT) (waits : nat)
  (q : ALLEGRO_EVENT_QUEUE) : Z * ALLEGRO_EVENT_QUEUE :=
  (0%Z, spurious_cond_wait waits q).

(** [wrapped_queue] with an unread event of a source that is not
    registered. *)
Definition stranger_queue : ALLEGRO_EVENT_QUEUE :=
  {| sources := [1; 2]%Z;
     events := [sample_event 2 30; sample_event 2 2;
                sample_event 7 10; sample_event 2 20];
     events_head := 1;
     events_tail := 2 |}.

(** ** Arithmetic of the indices *)

Lemma circ_next_lt (C i : nat) :
  i < C → (i + 1) mod C = if decide (i + 1 = C) then 0 else i + 1.
Proof.
  intros Hi. case_decide as Heq.
  - rewrite Heq. apply Nat.Div0.mod_same.
  - apply Nat.mod_small. lia.
Qed.

Lemma circ_next_bound (C i : nat) : C ≠ 0 → (i + 1) mod C < C.
Proof. intros. by apply Nat.mod_upper_bound. Qed.

Lemma circ_array_next_Some {A} (vector : list A) (i : nat) :
  length vector ≠ 0 →
  circ_array_next vector i = Some ((i + 1) mod length vector).
Proof. intros Hne. unfold circ_array_next, _al_vector_size. by case_decide. Qed.

Lemma _al_vector_ref_Some {A} (vec : list A) (idx : nat) :
  idx < length vec → _al_vector_ref vec idx = Some idx.
Proof. intros. unfold _al_vector_ref. by case_decide. Qed.

Lemma store_Some {A} (vec : list A) (p : nat) (x : A) :
  p < length vec → store vec p x = Some (<[p:=x]> vec).
Proof. intros. unfold store. by case_decide. Qed.

Lemma load_Some {A} (vec : list A) (p : nat) (x : A) :
  vec !! p = Some x → load vec p = Some x.
Proof. done. Qed.

Lemma lookup_app_decide {A} (l1 l2 : list A) (i : nat) :
  (l1 ++ l2) !! i =
    if decide (i < length l1) then l1 !! i else l2 !! (i - length l1).
Proof.
  case_decide.
  - by apply lookup_app_l.
  - apply lookup_app_r. lia.
Qed.

(** ** The list of unread events, slot by slot *)

Lemma live_lookup (q : ALLEGRO_EVENT_QUEUE) (k : nat) :
  in_range q →
  live q !! k =
    if decide (events_tail q ≤ events_head q) then
      if decide (k < events_head q - events_tail q)
      then events q !! (events_tail q + k) else None
    else
      if decide (k < capacity q - events_tail q)
      then events q !! (events_tail q + k)
      else if decide (k - (capacity q - events_tail q) < events_head q)
           then events q !! (k - (capacity q - events_tail q)) else None.
Proof.
  intros [Hh Ht]. unfold live.
  destruct (decide (events_tail q ≤ events_head q)).
  - by rewrite lookup_take, lookup_drop.
  - rewrite lookup_app_decide, length_drop, lookup_drop, lookup_take.
    done.
Qed.

Lemma length_live (q : ALLEGRO_EVENT_QUEUE) :
  in_range q →
  length (live q) =
    if decide (events_tail q ≤ events_head q)
    then events_head q - events_tail q
    else capacity q - events_tail q + events_head q.
Proof.
  intros [Hh Ht]. unfold live.
  case_decide.
  - rewrite length_take, length_drop. lia.
  - rewrite length_app, length_take, length_drop. lia.
Qed.

Lemma live_empty (q : ALLEGRO_EVENT_QUEUE) :
  events_head q = events_tail q → live q = [].
Proof.
  intros Heq. unfold live. rewrite Heq, decide_True by lia.
  by rewrite Nat.sub_diag.
Qed.

Lemma live_nonempty (q : ALLEGRO_EVENT_QUEUE) :
  in_range q → events_head q ≠ events_tail q → live q ≠ [].
Proof.
  intros Hr Hne Hnil. apply (f_equal length) in Hnil.
  rewrite length_live in Hnil by done. destruct Hr. simpl in Hnil.
  case_decide; lia.
Qed.

(** The oldest unread event is in the slot [events_tail]; the others are
    the unread events of the queue with [events_tail] moved on. *)
Lemma live_cons (q : ALLEGRO_EVENT_QUEUE) :
  in_range q → events_head q ≠ events_tail q →
  ∃ e, events q !! events_tail q = Some e ∧
       live q = e :: live (set_tail q ((events_tail q + 1) mod capacity q)).
Proof.
  intros Hr Hne. pose proof Hr as [Hh Ht].
  destruct (lookup_lt_is_Some_2 (events q) (events_tail q) Ht) as [e He].
  exists e. split; [done|].
  assert (Hr' : in_range (set_tail q ((events_tail q + 1) mod capacity q))).
  { split; simpl; [done|]. apply circ_next_bound. lia. }
  apply list_eq. intros k. rewrite live_lookup by done.
  destruct k as [|k]; simpl.
  - rewrite Nat.add_0_r, He. repeat case_decide; done || lia.
  - rewrite live_lookup by done. simpl.
    rewrite circ_next_lt by done.
    repeat case_decide; try done; try lia; f_equal; lia.
Qed.

Lemma lookup_singleton_decide {A} (x : A) (i : nat) :
  [x] !! i = if decide (i = 0) then Some x else None.
Proof. by destruct i. Qed.

Lemma lookup_replicate_decide {A} (n : nat) (x : A) (i : nat) :
  replicate n x !! i = if decide (i < n) then Some x else None.
Proof.
  case_decide.
  - by apply lookup_replicate_2.
  - apply lookup_replicate_None. lia.
Qed.

Ltac slot_cases :=
  repeat case_decide; try done; try lia; try (f_equal; lia).

(** Writing the slot [events_head] and moving [events_head] on appends to
    the unread events, as long as the buffer is not full. *)
Lemma live_snoc (q : ALLEGRO_EVENT_QUEUE) (e : ALLEGRO_EVENT) :
  in_range q →
  (events_head q + 1) mod capacity q ≠ events_tail q →
  live (set_head (set_events q (<[events_head q:=e]> (events q)))
          ((events_head q + 1) mod capacity q))
  = live q ++ [e].
Proof.
  intros Hr Hfull. pose proof Hr as [Hh Ht].
  rewrite circ_next_lt in Hfull by done.
  apply list_eq. intros k.
  rewrite live_lookup.
  2:{ split; simpl; rewrite length_insert; [|done].
      apply circ_next_bound. lia. }
  rewrite lookup_app_decide, lookup_singleton_decide, length_live by done.
  rewrite live_lookup by done. simpl.
  rewrite length_insert, circ_next_lt by done.
  rewrite !list_lookup_insert.
  slot_cases.
  all: try (exfalso; lia).
  all: try (symmetry; apply lookup_ge_None_2; lia).
Qed.

(** ** Taking events out *)

Lemma get_next_event_if_any_empty (q : ALLEGRO_EVENT_QUEUE) (delete : bool) :
  events_head q = events_tail q →
  get_next_event_if_any q delete = Some (None, q).
Proof.
  intros Heq. unfold get_next_event_if_any, al_event_queue_is_empty.
  by rewrite bool_decide_eq_true_2.
Qed.

Lemma get_next_event_if_any_nonempty (q : ALLEGRO_EVENT_QUEUE)
  (delete : bool) :
  in_range q → events_head q ≠ events_tail q →
  get_next_event_if_any q delete =
    Some (Some (events_tail q),
          if delete
          then set_tail q ((events_tail q + 1) mod capacity q)
          else q).
Proof.
  intros [Hh Ht] Hne. unfold get_next_event_if_any, al_event_queue_is_empty.
  rewrite bool_decide_eq_false_2 by done.
  rewrite _al_vector_ref_Some by done. simpl.
  destruct delete; [|done].
  rewrite circ_array_next_Some by lia. done.
Qed.

(** [get_peek_or_drop_next_event] on a queue whose unread events are
    [e :: l]: the call succeeds, hands out [e] when there is a buffer, and
    leaves [l] unread when asked to delete. *)
Lemma get_peek_or_drop_live (q : ALLEGRO_EVENT_QUEUE)
  (do_copy : option ALLEGRO_EVENT) (delete : bool)
  (e : ALLEGRO_EVENT) (l : list ALLEGRO_EVENT) :
  in_range q → live q = e :: l →
  let q' := if delete
            then set_tail q ((events_tail q + 1) mod capacity q)
            else q in
  get_peek_or_drop_next_event q do_copy delete
    = Some (true, (do_copy ≫= λ _, Some e), q')
  ∧ in_range q' ∧ live q' = (if delete then l else e :: l).
Proof.
  intros Hr Hlive q'. pose proof Hr as [Hh Ht].
  assert (Hne : events_head q ≠ events_tail q).
  { intros Heq. by rewrite live_empty in Hlive. }
  destruct (live_cons q Hr Hne) as (e' & He' & Hcons).
  rewrite Hlive in Hcons. injection Hcons as <- Hl.
  assert (Hev : events q' !! events_tail q = Some e).
  { subst q'. by destruct delete. }
  split; [|split].
  - unfold get_peek_or_drop_next_event.
    rewrite get_next_event_if_any_nonempty by done. simpl. fold q'.
    destruct do_copy; simpl; [|done].
    unfold load. by rewrite Hev.
  - subst q'. destruct delete; [|done].
    split; simpl; [done|]. apply circ_next_bound. lia.
  - subst q'. by destruct delete.
Qed.

Lemma get_peek_or_drop_empty (q : ALLEGRO_EVENT_QUEUE)
  (do_copy : option ALLEGRO_EVENT) (delete : bool) :
  events_head q = events_tail q →
  get_peek_or_drop_next_event q do_copy delete = Some (false, do_copy, q).
Proof.
  intros Heq. unfold get_peek_or_drop_next_event.
  by rewrite get_next_event_if_any_empty.
Qed.

(** ** Growing the array *)

Lemma set_events_id (q : ALLEGRO_EVENT_QUEUE) : set_events q (events q) = q.
Proof. by destruct q. Qed.

(** The loops [for (i = old_size; i < new_size; i++)
    _al_vector_alloc_back(&queue->events);]. *)
Lemma alloc_loop_spec (junk : ALLEGRO_EVENT) (n : nat) :
  ∀ (i : nat) (q : ALLEGRO_EVENT_QUEUE),
    for_loop n i
      (λ _ q, Some (set_events q (_al_vector_alloc_back junk (events q)).1)) q
    = Some (set_events q (events q ++ replicate n junk)).
Proof.
  induction n as [|n IH]; intros i q; simpl.
  - by rewrite app_nil_r, set_events_id.
  - rewrite IH. simpl. by rewrite <- app_assoc.
Qed.

(** The loop that moves the wrapped-around elements to the back. *)
Lemma copy_loop_spec (old_size n : nat) :
  ∀ (i : nat) (q : ALLEGRO_EVENT_QUEUE),
    i + n ≤ old_size → old_size + i + n ≤ capacity q →
    ∃ evs,
      for_loop n i
        (λ i q,
           old_ev ← _al_vector_ref (events q) i;
           new_ev ← _al_vector_ref (events q) (old_size + i);
           ev ← load (events q) old_ev;
           evs ← store (events q) new_ev (copy_event ev);
           Some (set_events q evs)) q
      = Some (set_events q evs)
      ∧ length evs = capacity q
      ∧ ∀ k, evs !! k =
             if decide (old_size + i ≤ k ∧ k < old_size + i + n)
             then events q !! (k - old_size) else events q !! k.
Proof.
  induction n as [|n IH]; intros i q Hi Hlen.
  - exists (events q). rewrite set_events_id. split; [done|]. split; [done|].
    intros k. case_decide; [lia|done].
  - cbn [for_loop].
    rewrite !_al_vector_ref_Some by lia. cbn [mbind option_bind].
    destruct (lookup_lt_is_Some_2 (events q) i) as [ev Hev]; [lia|].
    rewrite (load_Some _ _ _ Hev). cbn [mbind option_bind].
    rewrite store_Some by lia. cbn [mbind option_bind].
    destruct (IH (S i)
                (set_events q (<[old_size + i:=copy_event ev]> (events q))))
      as (evs & Hrun & Hlen' & Hlook).
    { lia. }
    { simpl. rewrite length_insert. lia. }
    exists evs. split; [exact Hrun|]. simpl in Hlen', Hlook.
    rewrite length_insert in Hlen'. split; [done|].
    intros k. rewrite Hlook, !list_lookup_insert. unfold copy_event.
    slot_cases.
    all: try (exfalso; lia).
    all: try (rewrite <- Hev; f_equal; lia).
Qed.

(** [expand_events_array] doubles the array, keeps what the old slots
    hold, copies the wrapped-around prefix behind them and rebases
    [events_head]. *)
Lemma expand_events_array_spec (junk : ALLEGRO_EVENT)
  (q : ALLEGRO_EVENT_QUEUE) :
  in_range q →
  ∃ q',
    expand_events_array junk q = Some q'
    ∧ sources q' = sources q
    ∧ events_tail q' = events_tail q
    ∧ events_head q' =
        (if decide (events_head q < events_tail q)
         then events_head q + capacity q else events_head q)
    ∧ capacity q' = capacity q * 2
    ∧ ∀ k, events q' !! k =
           if decide (k < capacity q) then events q !! k
           else if decide (events_head q < events_tail q
                           ∧ k < capacity q + events_head q)
                then events q !! (k - capacity q)
                else if decide (k < capacity q * 2) then Some junk else None.
Proof.
  intros [Hh Ht]. unfold expand_events_array, for_range, _al_vector_size.
  replace (capacity q * 2 - capacity q) with (capacity q) by lia.
  rewrite alloc_loop_spec. cbn [mbind option_bind].
  set (q1 := set_events q (events q ++ replicate (capacity q) junk)).
  assert (Hlook1 : ∀ k, events q1 !! k =
            if decide (k < capacity q) then events q !! k
            else if decide (k < capacity q * 2) then Some junk else None).
  { intros k. subst q1. simpl.
    rewrite lookup_app_decide, lookup_replicate_decide. slot_cases. }
  assert (Hlen1 : capacity q1 = capacity q * 2).
  { subst q1. simpl. rewrite length_app, length_replicate. lia. }
  change (events_head q1) with (events_head q).
  change (events_tail q1) with (events_tail q).
  destruct (decide (events_head q < events_tail q)) as [Hwrap|Hwrap].
  - rewrite Nat.sub_0_r.
    destruct (copy_loop_spec (capacity q) (events_head q) 0 q1)
      as (evs & Hrun & Hlen & Hlook); [lia|lia|].
    rewrite Hrun. cbn [mbind option_bind].
    eexists. split; [done|]. simpl.
    repeat (split; [done || lia|]).
    intros k. rewrite Hlook, !Hlook1. slot_cases.
    all: try (exfalso; lia).
  - eexists. split; [done|].
    repeat (split; [done || lia|]).
    intros k. rewrite Hlook1. slot_cases.
Qed.

Lemma expand_events_array_live (junk : ALLEGRO_EVENT)
  (q q' : ALLEGRO_EVENT_QUEUE) :
  in_range q → expand_events_array junk q = Some q' →
  in_range q' ∧ live q' = live q.
Proof.
  intros Hr Hrun. pose proof Hr as [Hh Ht].
  destruct (expand_events_array_spec junk q Hr)
    as (q2 & Hrun2 & _ & Htail & Hhead & Hcap & Hlook).
  rewrite Hrun in Hrun2. injection Hrun2 as <-.
  assert (Hr' : in_range q').
  { split; [rewrite Hhead | rewrite Htail]; case_decide; lia. }
  split; [done|].
  apply list_eq. intros k. rewrite !live_lookup by done.
  rewrite Hhead, Htail, Hcap, !Hlook.
  slot_cases.
  all: try (exfalso; lia).
Qed.

(** ** Putting events in *)


Lemma expand_not_full (junk : ALLEGRO_EVENT) (q q' : ALLEGRO_EVENT_QUEUE) :
  in_range q → is_full q → expand_events_array junk q = Some q' →
  ¬ is_full q'.
Proof.
  intros Hr Hfull Hrun. pose proof Hr as [Hh Ht].
  destruct (expand_events_array_spec junk q Hr)
    as (q2 & Hrun2 & _ & Htail & Hhead & Hcap & _).
  rewrite Hrun in Hrun2. injection Hrun2 as <-.
  unfold is_full in *. rewrite circ_next_lt in Hfull by done.
  rewrite Hcap, Htail, Hhead.
  rewrite circ_next_lt by (case_decide; lia).
  slot_cases.
Qed.

Lemma _al_event_queue_push_event_spec (junk : ALLEGRO_EVENT)
  (q : ALLEGRO_EVENT_QUEUE) (e : ALLEGRO_EVENT) :
  in_range q →
  ∃ q',
    _al_event_queue_push_event junk q e = Some q'
    ∧ in_range q'
    ∧ live q' = live q ++ [e]
    ∧ sources q' = sources q
    ∧ events_tail q' = events_tail q
    ∧ capacity q' =
        (if decide (is_full q) then capacity q * 2 else capacity q).
Proof.
  intros Hr. pose proof Hr as [Hh Ht].
  unfold _al_event_queue_push_event, alloc_event.
  rewrite circ_array_next_Some by lia. cbn [mbind option_bind].
  fold (is_full q).
  assert (Hstep : ∀ q1 : ALLEGRO_EVENT_QUEUE,
            in_range q1 → ¬ is_full q1 →
            let q' := set_head (set_events q1 (<[events_head q1:=e]> (events q1)))
                        ((events_head q1 + 1) mod capacity q1) in
            (event ← _al_vector_ref (events q1) (events_head q1);
             Some (event, set_head q1 ((events_head q1 + 1) mod capacity q1)))
              ≫= (λ '(new_event, q),
                    evs ← store (events q) new_event (copy_event e);
                    Some (set_events q evs))
            = Some q'
            ∧ in_range q' ∧ live q' = live q1 ++ [e]
            ∧ sources q' = sources q1 ∧ events_tail q' = events_tail q1
            ∧ capacity q' = capacity q1).
  { intros q1 Hr1 Hnf q'. pose proof Hr1 as [Hh1 Ht1].
    rewrite _al_vector_ref_Some by done. cbn [mbind option_bind].
    simpl. rewrite store_Some by done. cbn [mbind option_bind].
    split; [done|]. subst q'. split.
    { split; simpl; rewrite length_insert; [|done].
      apply circ_next_bound. lia. }
    split; [by apply live_snoc|].
    simpl. by rewrite length_insert. }
  destruct (decide (is_full q)) as [Hfull|Hfull].
  - destruct (expand_events_array_spec junk q Hr)
      as (q1 & Hrun & Hsrc & Htail & Hhead & Hcap & Hlook).
    destruct (expand_events_array_live junk q q1 Hr Hrun) as [Hr1 Hlive1].
    pose proof (expand_not_full junk q q1 Hr Hfull Hrun) as Hnf.
    rewrite Hrun. cbn [mbind option_bind].
    rewrite circ_array_next_Some by (destruct Hr1; lia).
    cbn [mbind option_bind].
    destruct (Hstep q1 Hr1 Hnf) as (Heq & Hr' & Hlive' & Hsrc' & Htail' & Hcap').
    eexists. split; [exact Heq|].
    split; [done|]. split; [by rewrite Hlive', Hlive1|].
    split; [by rewrite Hsrc'|]. split; [by rewrite Htail'|].
    by rewrite Hcap'.
  - destruct (Hstep q Hr Hfull) as (Heq & Hrest).
    eexists. split; [exact Heq|]. exact Hrest.
Qed.

(** ** The smallest fitting power of two *)

Lemma pot_loop_spec (fuel : nat) :
  ∀ x y : nat,
    0 < y → x ≤ y * 2 ^ fuel →
    x ≤ pot_loop fuel x y
    ∧ (∃ j, pot_loop fuel x y = y * 2 ^ j)
    ∧ (pot_loop fuel x y = y ∨ pot_loop fuel x y < 2 * x).
Proof.
  induction fuel as [|fuel IH]; intros x y Hy Hx; simpl in *.
  - split; [lia|]. split; [exists 0; simpl; lia | by left].
  - case_decide as Hlt.
    + destruct (IH x (y * 2)) as (Hle & [j Hj] & Hmin); [lia|lia|].
      split; [done|]. split.
      * exists (S j). rewrite Hj. simpl. lia.
      * right. destruct Hmin as [-> | ?]; lia.
    + split; [lia|]. split; [exists 0; simpl; lia | by left].
Qed.

(** The loop of [pot] leaves through its test: the result is at least [x]. *)
Lemma pot_fits (x : nat) : x ≤ pot x.
Proof.
  unfold pot. apply pot_loop_spec; [lia|].
  pose proof (Nat.pow_gt_lin_r 2 x). lia.
Qed.

Lemma pot_power_of_two (x : nat) : is_power_of_two (pot x).
Proof.
  unfold pot. destruct (pot_loop_spec x x 1) as (_ & [j Hj] & _); [lia| |].
  - pose proof (Nat.pow_gt_lin_r 2 x). lia.
  - exists j. lia.
Qed.

Lemma pot_least (x m : nat) : is_power_of_two m → x ≤ m → pot x ≤ m.
Proof.
  intros [k ->] Hx.
  destruct (pot_power_of_two x) as [j Hj].
  assert (Hmin : pot x = 1 ∨ pot x < 2 * x).
  { unfold pot. apply pot_loop_spec; [lia|].
    pose proof (Nat.pow_gt_lin_r 2 x). lia. }
  assert (0 < 2 ^ k) by (apply Nat.neq_0_lt_0, Nat.pow_nonzero; lia).
  destruct Hmin as [-> | Hlt]; [lia|].
  rewrite Hj in *.
  destruct (decide (j ≤ k)) as [Hjk|Hjk].
  - apply Nat.pow_le_mono_r; lia.
  - assert (2 ^ (S k) ≤ 2 ^ j) by (apply Nat.pow_le_mono_r; lia).
    simpl in *. lia.
Qed.

(** ** Walking the circular array *)

Lemma length_live_lt (q : ALLEGRO_EVENT_QUEUE) :
  in_range q → length (live q) < capacity q.
Proof.
  intros Hr. rewrite length_live by done. destruct Hr. case_decide; lia.
Qed.

Lemma set_tail_set_tail (q : ALLEGRO_EVENT_QUEUE) (i j : nat) :
  set_tail (set_tail q i) j = set_tail q j.
Proof. done. Qed.

Lemma set_tail_id (q : ALLEGRO_EVENT_QUEUE) : set_tail q (events_tail q) = q.
Proof. by destruct q. Qed.

Lemma contains_event_of_source_loop_spec (q : ALLEGRO_EVENT_QUEUE)
  (source : source_ptr) :
  ∀ (fuel i : nat),
    in_range (set_tail q i) →
    length (live (set_tail q i)) < fuel →
    contains_event_of_source_loop fuel q source i
    = Some (bool_decide (source ∈ any_source <$> live (set_tail q i))).
Proof.
  induction fuel as [|fuel IH]; intros i Hr Hfuel; [lia|].
  pose proof Hr as [Hh Ht]. simpl in Hh, Ht.
  cbn [contains_event_of_source_loop].
  destruct (decide (i ≠ events_head q)) as [Hne|Heq].
  - destruct (live_cons (set_tail q i) Hr) as (e & He & Hcons).
    { simpl. congruence. }
    rewrite set_tail_set_tail in Hcons.
    simpl in He, Hcons. rewrite Hcons in Hfuel |- *.
    rewrite _al_vector_ref_Some by done. cbn [mbind option_bind].
    rewrite (load_Some _ _ _ He). cbn [mbind option_bind].
    destruct (decide (any_source e = source)) as [Hsrc|Hsrc].
    + rewrite bool_decide_eq_true_2; [done|].
      rewrite fmap_cons, Hsrc. apply list_elem_of_here.
    + rewrite circ_array_next_Some by lia. cbn [mbind option_bind].
      unfold _al_vector_size.
      rewrite IH.
      * f_equal. apply bool_decide_ext. rewrite fmap_cons, elem_of_cons.
        split; [by right|]. intros [Heq|Hin]; [congruence|done].
      * split; simpl; [done|]. apply circ_next_bound. lia.
      * simpl in Hfuel. lia.
  - apply dec_stable in Heq. subst i.
    rewrite live_empty by done. done.
Qed.

Lemma contains_event_of_source_spec (q : ALLEGRO_EVENT_QUEUE)
  (source : source_ptr) :
  in_range q →
  contains_event_of_source q source
  = Some (bool_decide (source ∈ any_source <$> live q)).
Proof.
  intros Hr. unfold contains_event_of_source, scan_fuel, _al_vector_size.
  rewrite contains_event_of_source_loop_spec; rewrite set_tail_id.
  - done.
  - done.
  - pose proof (length_live_lt q Hr). lia.
Qed.


Lemma store_alloc_back {A} (junk x : A) (vec : list A) :
  store (_al_vector_alloc_back junk vec).1 (_al_vector_alloc_back junk vec).2 x
  = Some (vec ++ [x]).
Proof.
  unfold _al_vector_alloc_back. simpl.
  rewrite store_Some by (rewrite length_app; simpl; lia).
  f_equal. rewrite <- (Nat.add_0_r (length vec)). by rewrite insert_app_r.
Qed.

Lemma discard_loop_spec (junk : ALLEGRO_EVENT)
  (old_events : list ALLEGRO_EVENT) (source : source_ptr) :
  ∀ (fuel : nat) (q : ALLEGRO_EVENT_QUEUE) (i : nat),
    in_range (mk_queue (sources q) old_events (events_head q) i) →
    length (live (mk_queue (sources q) old_events (events_head q) i)) < fuel →
    discard_loop junk fuel old_events source q i
    = Some (set_events q
              (events q ++
               kept source
                 (live (mk_queue (sources q) old_events (events_head q) i)))).
Proof.
  induction fuel as [|fuel IH]; intros q i Hr Hfuel; [lia|].
  pose proof Hr as [Hh Ht]. simpl in Hh, Ht.
  cbn [discard_loop].
  destruct (decide (i ≠ events_head q)) as [Hne|Heq].
  - destruct (live_cons _ Hr) as (e & He & Hcons).
    { simpl. congruence. }
    simpl in He.
    unfold set_tail in Hcons. simpl in Hcons.
    rewrite Hcons in Hfuel |- *. simpl in Hfuel.
    rewrite _al_vector_ref_Some by done. cbn [mbind option_bind].
    rewrite (load_Some _ _ _ He). cbn [mbind option_bind].
    assert (Hr' : in_range (mk_queue (sources q) old_events (events_head q)
                              ((i + 1) mod length old_events))).
    { split; simpl; [done|]. apply circ_next_bound. lia. }
    unfold kept.
    destruct (decide (any_source e ≠ source)) as [Hsrc|Hsrc].
    + destruct (_al_vector_alloc_back junk (events q)) as [v new_event] eqn:Hab.
      pose proof (store_alloc_back junk (copy_event e) (events q)) as Hst.
      rewrite Hab in Hst. simpl in Hst. rewrite Hst.
      cbn [mbind option_bind].
      rewrite circ_array_next_Some by lia. cbn [mbind option_bind].
      unfold _al_vector_size.
      rewrite IH; [|exact Hr'|simpl; lia]. simpl.
      rewrite filter_cons_True by done.
      unfold kept, copy_event. by rewrite <- app_assoc.
    + cbn [mbind option_bind].
      rewrite circ_array_next_Some by lia. cbn [mbind option_bind].
      unfold _al_vector_size.
      rewrite IH; [|exact Hr'|simpl; lia].
      rewrite filter_cons_False by done. done.
  - apply dec_stable in Heq. subst i.
    rewrite live_empty by done. unfold kept.
    by rewrite filter_nil, app_nil_r, set_events_id.
Qed.


Lemma discard_events_of_source_spec (junk : ALLEGRO_EVENT)
  (q : ALLEGRO_EVENT_QUEUE) (source : source_ptr) :
  in_range q →
  discard_events_of_source junk q source = Some (discarded junk q source).
Proof.
  intros Hr. unfold discard_events_of_source, discarded.
  rewrite contains_event_of_source_spec by done. cbn [mbind option_bind].
  destruct (bool_decide (source ∈ any_source <$> live q)); [|done].
  cbn [negb].
  rewrite discard_loop_spec.
  - cbn [mbind option_bind]. unfold for_range, _al_vector_size.
    rewrite alloc_loop_spec. by destruct q.
  - by destruct q.
  - unfold scan_fuel, _al_vector_size.
    pose proof (length_live_lt q Hr). destruct q. simpl in *. lia.
Qed.

Lemma kept_no_source (source : source_ptr) (l : list ALLEGRO_EVENT) :
  source ∉ any_source <$> kept source l.
Proof.
  unfold kept. intros (e & -> & Hin)%list_elem_of_fmap.
  apply list_elem_of_filter in Hin as [Hne _]. done.
Qed.

Lemma discarded_spec (junk : ALLEGRO_EVENT) (q : ALLEGRO_EVENT_QUEUE)
  (source : source_ptr) :
  source ∈ any_source <$> live q →
  let q' := discarded junk q source in
  in_range q'
  ∧ live q' = kept source (live q)
  ∧ sources q' = sources q
  ∧ events_tail q' = 0
  ∧ events_head q' = length (kept source (live q))
  ∧ capacity q' = pot (length (kept source (live q)) + 1).
Proof.
  intros Hin q'. subst q'. unfold discarded.
  rewrite bool_decide_eq_true_2 by done.
  pose proof (pot_fits (length (kept source (live q)) + 1)) as Hfit.
  assert (Hcap : length (kept source (live q) ++
                   replicate (pot (length (kept source (live q)) + 1)
                              - length (kept source (live q))) junk)
                 = pot (length (kept source (live q)) + 1)).
  { rewrite length_app, length_replicate. lia. }
  cbn [events events_head events_tail sources].
  split; [split; cbn [events events_head events_tail]; lia|].
  split; [|done].
  unfold live. cbn [events events_head events_tail].
  rewrite decide_True by lia.
  by rewrite Nat.sub_0_r, drop_0, take_app_length.
Qed.

Lemma discarded_absent (junk : ALLEGRO_EVENT) (q : ALLEGRO_EVENT_QUEUE)
  (source : source_ptr) :
  source ∉ any_source <$> live q → discarded junk q source = q.
Proof. intros Hin. unfold discarded. by rewrite bool_decide_eq_false_2. Qed.

(** ** The registry *)

Lemma _al_vector_find_and_delete_absent {A} `{EqDecision A}
  (vec : list A) (x : A) :
  x ∉ vec → _al_vector_find_and_delete vec x = (false, vec).
Proof.
  induction vec as [|y vec IH]; intros Hin; simpl; [done|].
  apply not_elem_of_cons in Hin as [Hne Hin].
  rewrite decide_False by done. by rewrite IH.
Qed.

Lemma _al_vector_find_and_delete_present {A} `{EqDecision A}
  (vec : list A) (x : A) :
  x ∈ vec → (_al_vector_find_and_delete vec x).1 = true.
Proof.
  induction vec as [|y vec IH]; intros Hin; simpl.
  - by apply elem_of_nil in Hin.
  - case_decide; [done|].
    apply elem_of_cons in Hin as [->|Hin]; [done|].
    specialize (IH Hin).
    destruct (_al_vector_find_and_delete vec x). done.
Qed.

Lemma al_register_event_source_present (q : ALLEGRO_EVENT_QUEUE)
  (source : source_ptr) :
  source ∈ sources q → al_register_event_source q source = (q, []).
Proof.
  intros Hin. unfold al_register_event_source, _al_vector_contains.
  by rewrite bool_decide_eq_true_2.
Qed.

Lemma al_register_event_source_absent (q : ALLEGRO_EVENT_QUEUE)
  (source : source_ptr) :
  source ∉ sources q →
  al_register_event_source q source
  = (set_sources q (sources q ++ [source]), [on_registration_to_queue source]).
Proof.
  intros Hin. unfold al_register_event_source, _al_vector_contains.
  rewrite bool_decide_eq_false_2 by done. simpl.
  rewrite <- (Nat.add_0_r (length (sources q))). by rewrite insert_app_r.
Qed.


(** ** Runs of pushes and of gets *)

Lemma push_events_spec (junk : ALLEGRO_EVENT) (es : list ALLEGRO_EVENT) :
  ∀ q : ALLEGRO_EVENT_QUEUE,
    in_range q →
    ∃ q', push_events junk q es = Some q'
          ∧ in_range q'
          ∧ live q' = live q ++ es
          ∧ sources q' = sources q.
Proof.
  induction es as [|e es IH]; intros q Hr; simpl.
  - exists q. by rewrite app_nil_r.
  - destruct (_al_event_queue_push_event_spec junk q e Hr)
      as (q1 & Hpush & Hr1 & Hlive1 & Hsrc1 & _).
    rewrite Hpush. cbn [mbind option_bind].
    destruct (IH q1 Hr1) as (q' & Hrun & Hr' & Hlive' & Hsrc').
    exists q'. split; [done|]. split; [done|].
    split; [|congruence].
    by rewrite Hlive', Hlive1, <- app_assoc.
Qed.

Lemma get_events_spec (l1 : list ALLEGRO_EVENT) :
  ∀ (q : ALLEGRO_EVENT_QUEUE) (buf : ALLEGRO_EVENT)
    (l2 : list ALLEGRO_EVENT),
    in_range q → live q = l1 ++ l2 →
    ∃ q', get_events (length l1) q (Some buf)
          = Some ((λ e, (true, Some e)) <$> l1, q')
          ∧ in_range q'
          ∧ live q' = l2
          ∧ sources q' = sources q
          ∧ events q' = events q
          ∧ events_head q' = events_head q.
Proof.
  induction l1 as [|e l1 IH]; intros q buf l2 Hr Hlive; simpl.
  - by exists q.
  - destruct (get_peek_or_drop_live q (Some buf) true e (l1 ++ l2) Hr Hlive)
      as (Hget & Hr1 & Hlive1).
    unfold al_get_next_event. rewrite Hget. cbn [mbind option_bind].
    destruct (IH _ e l2 Hr1 Hlive1) as (q' & Hrun & Hr' & Hlive' & Hsame).
    rewrite Hrun. cbn [mbind option_bind].
    exists q'. split; [done|]. split; [done|]. split; [done|].
    exact Hsame.
Qed.

(** ** The invariant *)

Lemma invariant_in_range (q : ALLEGRO_EVENT_QUEUE) :
  circular_buffer_invariant q → in_range q.
Proof. intros [_ _ Hh Ht _]. by split. Qed.

Lemma invariant_intro (q : ALLEGRO_EVENT_QUEUE) :
  is_power_of_two (capacity q) → in_range q → circular_buffer_invariant q.
Proof.
  intros Hpow [Hh Ht]. split; [done|lia|done|done|].
  unfold logical_size.
  pose proof (Z.mod_pos_bound
                (Z.of_nat (events_head q) - Z.of_nat (events_tail q))
                (Z.of_nat (capacity q))).
  lia.
Qed.

(** The logical size of the specification is the number of unread events. *)
Lemma logical_size_live (q : ALLEGRO_EVENT_QUEUE) :
  in_range q → logical_size q = Z.of_nat (length (live q)).
Proof.
  intros Hr. pose proof Hr as [Hh Ht].
  rewrite length_live by done. unfold logical_size.
  case_decide.
  - rewrite Z.mod_small by lia. lia.
  - symmetry. apply (Z.mod_unique_pos _ _ (-1)). all: lia.
Qed.

Lemma is_power_of_two_double (n : nat) :
  is_power_of_two n → is_power_of_two (n * 2).
Proof. intros [k ->]. exists (S k). simpl. lia. Qed.

Lemma al_create_event_queue_invariant (junk : ALLEGRO_EVENT) :
  circular_buffer_invariant (al_create_event_queue junk).
Proof.
  apply invariant_intro.
  - by exists 0.
  - split; simpl; lia.
Qed.

Lemma run_op_invariant (junk : ALLEGRO_EVENT) (op : queue_op)
  (q : ALLEGRO_EVENT_QUEUE) :
  circular_buffer_invariant q →
  ∃ q', run_op junk op q = Some q' ∧ circular_buffer_invariant q'.
Proof.
  intros Hinv. pose proof (invariant_in_range q Hinv) as Hr.
  pose proof Hr as [Hh Ht]. pose proof (inv_power_of_two q Hinv) as Hpow.
  assert (Hdeq : ∀ (do_copy : option ALLEGRO_EVENT) (delete : bool),
            ∃ r b q', get_peek_or_drop_next_event q do_copy delete
                      = Some (r, b, q') ∧ circular_buffer_invariant q').
  { intros do_copy delete.
    destruct (decide (events_head q = events_tail q)) as [Heq|Hne].
    - rewrite get_peek_or_drop_empty by done. by eexists _, _, _.
    - destruct (live q) as [|e l] eqn:Hlive.
      { by apply live_nonempty in Hlive. }
      destruct (get_peek_or_drop_live q do_copy delete e l Hr Hlive)
        as (Hget & Hr' & _).
      rewrite Hget. eexists _, _, _. split; [done|].
      apply invariant_intro; [|done]. by destruct delete. }
  destruct op as [e|ret_event|ret_event| | |source|source|source]; simpl.
  - destruct (_al_event_queue_push_event_spec junk q e Hr)
      as (q' & Hpush & Hr' & _ & _ & _ & Hcap).
    exists q'. split; [done|]. apply invariant_intro; [|done].
    rewrite Hcap. case_decide; [by apply is_power_of_two_double|done].
  - destruct (Hdeq ret_event true) as (r & b & q' & Hget & Hinv').
    unfold al_get_next_event. rewrite Hget. by exists q'.
  - destruct (Hdeq ret_event false) as (r & b & q' & Hget & Hinv').
    unfold al_peek_next_event. rewrite Hget. by exists q'.
  - destruct (Hdeq None true) as (r & b & q' & Hget & Hinv').
    unfold al_drop_next_event. rewrite Hget. by exists q'.
  - eexists. split; [done|]. apply invariant_intro; [done|].
    split; simpl; lia.
  - assert (Hd : circular_buffer_invariant (discarded junk q source)).
    { destruct (decide (source ∈ any_source <$> live q)) as [Hin|Hin].
      - destruct (discarded_spec junk q source Hin)
          as (Hr' & _ & _ & _ & _ & Hcap).
        apply invariant_intro; [|done]. rewrite Hcap.
        apply pot_power_of_two.
      - by rewrite discarded_absent. }
    rewrite discard_events_of_source_spec by done. by eexists.
  - eexists. split; [done|].
    unfold al_register_event_source. case_match; simpl; [|done].
    apply invariant_intro; done.
  - unfold al_unregister_event_source.
    destruct (_al_vector_find_and_delete (sources q) source) as [found v].
    assert (Hr1 : in_range (set_sources q v)) by done.
    destruct found.
    + rewrite discard_events_of_source_spec by done.
      cbn [mbind option_bind]. eexists. split; [done|].
      destruct (decide (source ∈ any_source <$> live (set_sources q v)))
        as [Hin|Hin].
      * destruct (discarded_spec junk (set_sources q v) source Hin)
          as (Hr' & _ & _ & _ & _ & Hcap).
        apply invariant_intro; [|done]. rewrite Hcap.
        apply pot_power_of_two.
      * rewrite discarded_absent by done. by apply invariant_intro.
    + cbn [mbind option_bind]. eexists. split; [done|].
      by apply invariant_intro.
Qed.


(** ** Properties of the specification *)

Example wrapped_queue_reachable : wrapped_queue_run = Some wrapped_queue.
Proof. reflexivity. Qed.

(** C1, FIFO order.  Events [e1, ..., en] pushed in that order into an
    empty queue come back from [n] successive calls of [al_get_next_event]
    in that order: every call returns true and leaves the next event in the
    caller's buffer, none is lost, duplicated or reordered, and the queue is
    empty again afterwards. *)
Theorem fifo_order (junk : ALLEGRO_EVENT) (q : ALLEGRO_EVENT_QUEUE)
  (es : list ALLEGRO_EVENT) (buf : ALLEGRO_EVENT) :
  in_range q → events_head q = events_tail q →
  ∃ q1 q2,
    push_events junk q es = Some q1
    ∧ get_events (length es) q1 (Some buf)
      = Some ((λ e, (true, Some e)) <$> es, q2)
    ∧ al_event_queue_is_empty q2 = true.
Proof.
  intros Hr Hempty.
  destruct (push_events_spec junk es q Hr) as (q1 & Hpush & Hr1 & Hlive1 & _).
  rewrite (live_empty q) in Hlive1 by done. simpl in Hlive1.
  destruct (get_events_spec es q1 buf [] Hr1) as (q2 & Hget & Hr2 & Hlive2 & _).
  { by rewrite app_nil_r. }
  exists q1, q2. split; [done|]. split; [done|].
  unfold al_event_queue_is_empty. apply bool_decide_eq_true_2.
  destruct (decide (events_head q2 = events_tail q2)) as [|Hne]; [done|].
  by apply live_nonempty in Hne.
Qed.

Lemma fifo_order_witness :
  in_range (al_create_event_queue blank_event)
  ∧ events_head (al_create_event_queue blank_event)
    = events_tail (al_create_event_queue blank_event)
  ∧ ∃ q1 q2,
      push_events blank_event (al_create_event_queue blank_event)
        [sample_event 1 10; sample_event 2 20; sample_event 1 30] = Some q1
      ∧ get_events 3 q1 (Some blank_event)
        = Some ([(true, Some (sample_event 1 10));
                 (true, Some (sample_event 2 20));
                 (true, Some (sample_event 1 30))], q2)
      ∧ al_event_queue_is_empty q2 = true.
Proof.
  assert (Hr : in_range (al_create_event_queue blank_event)).
  { split; simpl; lia. }
  split; [exact Hr|]. split; [reflexivity|].
  exact (fifo_order blank_event (al_create_event_queue blank_event)
           [sample_event 1 10; sample_event 2 20; sample_event 1 30]
           blank_event Hr eq_refl).
Defined.

(** C2, growth.  When a push finds the buffer full, [expand_events_array]
    doubles the capacity and keeps what the old slots hold.  If the unread
    range wraps ([events_head < events_tail]) the prefix [[0, head)] is
    copied to [[oldC, oldC + head)] and [events_head] becomes
    [oldC + head]; otherwise [events_head] stays.  Either way the unread
    range no longer wraps and the unread events are the same records in
    the same order as before; the push then appends its event to them. *)
Theorem growth_keeps_unread_events (junk : ALLEGRO_EVENT)
  (q : ALLEGRO_EVENT_QUEUE) (e : ALLEGRO_EVENT) :
  in_range q → is_full q →
  ∃ q1 q2,
    expand_events_array junk q = Some q1
    ∧ capacity q1 = capacity q * 2
    ∧ events_tail q1 = events_tail q
    ∧ (∀ i, i < capacity q → events q1 !! i = events q !! i)
    ∧ (events_head q < events_tail q →
       events_head q1 = capacity q + events_head q
       ∧ ∀ i, i < events_head q →
              events q1 !! (capacity q + i) = events q !! i)
    ∧ (¬ events_head q < events_tail q → events_head q1 = events_head q)
    ∧ events_tail q1 ≤ events_head q1
    ∧ live q1 = live q
    ∧ _al_event_queue_push_event junk q e = Some q2
    ∧ capacity q2 = capacity q * 2
    ∧ live q2 = live q ++ [e].
Proof.
  intros Hr Hfull. pose proof Hr as [Hh Ht].
  destruct (expand_events_array_spec junk q Hr)
    as (q1 & Hrun & _ & Htail & Hhead & Hcap & Hlook).
  destruct (expand_events_array_live junk q q1 Hr Hrun) as [_ Hlive].
  destruct (_al_event_queue_push_event_spec junk q e Hr)
    as (q2 & Hpush & _ & Hlive2 & _ & _ & Hcap2).
  rewrite decide_True in Hcap2 by done.
  exists q1, q2.
  split; [done|]. split; [done|]. split; [done|].
  split. { intros i Hi. rewrite Hlook. by rewrite decide_True. }
  split.
  { intros Hwrap. rewrite Hhead, decide_True by done. split; [lia|].
    intros i Hi. rewrite Hlook.
    rewrite decide_False, decide_True by lia. f_equal. lia. }
  split. { intros Hwrap. by rewrite Hhead, decide_False. }
  split. { rewrite Hhead, Htail. case_decide; lia. }
  done.
Qed.

Lemma growth_keeps_unread_events_witness :
  in_range wrapped_queue ∧ is_full wrapped_queue
  ∧ ∃ q1 q2,
      expand_events_array blank_event wrapped_queue = Some q1
      ∧ capacity q1 = 4 * 2
      ∧ events_tail q1 = 2
      ∧ (∀ i, i < 4 → events q1 !! i = events wrapped_queue !! i)
      ∧ (1 < 2 →
         events_head q1 = 4 + 1
         ∧ ∀ i, i < 1 → events q1 !! (4 + i) = events wrapped_queue !! i)
      ∧ (¬ 1 < 2 → events_head q1 = 1)
      ∧ events_tail q1 ≤ events_head q1
      ∧ live q1 = live wrapped_queue
      ∧ _al_event_queue_push_event blank_event wrapped_queue
          (sample_event 1 40) = Some q2
      ∧ capacity q2 = 4 * 2
      ∧ live q2 = live wrapped_queue ++ [sample_event 1 40].
Proof.
  assert (Hr : in_range wrapped_queue) by (split; simpl; lia).
  assert (Hfull : is_full wrapped_queue) by reflexivity.
  split; [exact Hr|]. split; [exact Hfull|].
  exact (growth_keeps_unread_events blank_event wrapped_queue
           (sample_event 1 40) Hr Hfull).
Defined.

(** C3, source discard.  Unregistering a registered source [A] from a
    queue that holds events of [A] notifies the source and leaves exactly
    the events whose source is not [A], in their original order, with
    [events_tail] reset to 0, [events_head] equal to the number of events
    kept and the capacity the smallest power of two that is at least that
    number plus one; [contains_event_of_source] then finds no event of [A]. *)
Theorem unregister_discards_source (junk : ALLEGRO_EVENT)
  (q : ALLEGRO_EVENT_QUEUE) (A : source_ptr) :
  in_range q → A ∈ sources q → A ∈ any_source <$> live q →
  ∃ q',
    al_unregister_event_source junk q A
    = Some (q', [on_unregistration_from_queue A])
    ∧ live q' = filter (λ e, any_source e ≠ A) (live q)
    ∧ events_tail q' = 0
    ∧ events_head q' = length (filter (λ e, any_source e ≠ A) (live q))
    ∧ is_power_of_two (capacity q')
    ∧ length (filter (λ e, any_source e ≠ A) (live q)) + 1 ≤ capacity q'
    ∧ (∀ m, is_power_of_two m →
            length (filter (λ e, any_source e ≠ A) (live q)) + 1 ≤ m →
            capacity q' ≤ m)
    ∧ contains_event_of_source q' A = Some false.
Proof.
  intros Hr Hreg Hin. unfold al_unregister_event_source.
  pose proof (_al_vector_find_and_delete_present (sources q) A Hreg) as Hfound.
  destruct (_al_vector_find_and_delete (sources q) A) as [found v].
  simpl in Hfound. subst found.
  assert (Hr1 : in_range (set_sources q v)) by done.
  assert (Hin1 : A ∈ any_source <$> live (set_sources q v)) by done.
  rewrite discard_events_of_source_spec by done. cbn [mbind option_bind].
  destruct (discarded_spec junk (set_sources q v) A Hin1)
    as (Hr' & Hlive' & _ & Htail' & Hhead' & Hcap').
  change (live (set_sources q v)) with (live q) in *.
  fold (kept A (live q)).
  eexists. split; [done|].
  split; [done|]. split; [done|]. split; [done|].
  split. { rewrite Hcap'. apply pot_power_of_two. }
  split. { rewrite Hcap'. apply pot_fits. }
  split. { intros m Hm Hle. rewrite Hcap'. by apply pot_least. }
  rewrite contains_event_of_source_spec by done.
  f_equal. apply bool_decide_eq_false_2. rewrite Hlive'.
  apply kept_no_source.
Qed.

Lemma unregister_discards_source_witness :
  in_range wrapped_queue ∧ 1%Z ∈ sources wrapped_queue
  ∧ 1%Z ∈ any_source <$> live wrapped_queue
  ∧ ∃ q',
      al_unregister_event_source blank_event wrapped_queue 1
      = Some (q', [on_unregistration_from_queue 1])
      ∧ live q' = filter (λ e, any_source e ≠ 1%Z) (live wrapped_queue)
      ∧ events_tail q' = 0
      ∧ events_head q'
        = length (filter (λ e, any_source e ≠ 1%Z) (live wrapped_queue))
      ∧ is_power_of_two (capacity q')
      ∧ length (filter (λ e, any_source e ≠ 1%Z) (live wrapped_queue)) + 1
        ≤ capacity q'
      ∧ (∀ m, is_power_of_two m →
              length (filter (λ e, any_source e ≠ 1%Z) (live wrapped_queue)) + 1
              ≤ m →
              capacity q' ≤ m)
      ∧ contains_event_of_source q' 1 = Some false.
Proof.
  assert (Hr : in_range wrapped_queue) by (split; simpl; lia).
  assert (Hreg : 1%Z ∈ sources wrapped_queue) by (simpl; apply list_elem_of_here).
  assert (Hin : 1%Z ∈ any_source <$> live wrapped_queue).
  { vm_compute. apply list_elem_of_here. }
  split; [exact Hr|]. split; [exact Hreg|]. split; [exact Hin|].
  exact (unregister_discards_source blank_event wrapped_queue 1 Hr Hreg Hin).
Defined.

(** C4 as stated does not hold: the array of a new queue has one slot, not
    two. *)
Lemma create_capacity_two_fails :
  ¬ (al_event_queue_is_empty (al_create_event_queue blank_event) = true
     ∧ sources (al_create_event_queue blank_event) = []
     ∧ capacity (al_create_event_queue blank_event) = 2).
Proof. intros (_ & _ & Hcap). vm_compute in Hcap. discriminate. Qed.

(** C4, amended.  A queue returned by [al_create_event_queue] is empty
    ([events_head = events_tail], [al_event_queue_is_empty] true), has an
    empty source registry, and its circular buffer has storage capacity
    exactly 1: that slot is the reserved one, so the usable capacity is 0
    and the buffer is full as created. *)
Theorem create_event_queue_initial (junk : ALLEGRO_EVENT) :
  al_event_queue_is_empty (al_create_event_queue junk) = true
  ∧ events_head (al_create_event_queue junk)
    = events_tail (al_create_event_queue junk)
  ∧ sources (al_create_event_queue junk) = []
  ∧ capacity (al_create_event_queue junk) = 1
  ∧ capacity (al_create_event_queue junk) - 1 = 0
  ∧ is_full (al_create_event_queue junk).
Proof. repeat split. Qed.

(** C5, the invariant.  The queue [al_create_event_queue] returns satisfies
    the invariant of the circular buffer (the capacity is a power of two and
    at least 1, [events_head] and [events_tail] are indices below it, and
    the logical size [(head - tail) mod C] is at most [C - 1]), and every
    operation run on a queue that satisfies it returns, leaving a queue
    that satisfies it: push, get, peek, drop, flush, discard by source,
    register and unregister. *)
Theorem circular_buffer_invariant_preserved (junk : ALLEGRO_EVENT) :
  circular_buffer_invariant (al_create_event_queue junk)
  ∧ ∀ (op : queue_op) (q : ALLEGRO_EVENT_QUEUE),
      circular_buffer_invariant q →
      ∃ q', run_op junk op q = Some q' ∧ circular_buffer_invariant q'.
Proof.
  split.
  - apply al_create_event_queue_invariant.
  - intros op q. apply run_op_invariant.
Qed.

Lemma circular_buffer_invariant_preserved_witness :
  circular_buffer_invariant wrapped_queue
  ∧ ∃ q', run_op blank_event (op_push (sample_event 1 40)) wrapped_queue
          = Some q'
          ∧ circular_buffer_invariant q'.
Proof.
  assert (Hinv : circular_buffer_invariant wrapped_queue).
  { split; simpl; [by exists 2|lia|lia|lia|].
    vm_compute. discriminate. }
  split; [exact Hinv|].
  exact (proj2 (circular_buffer_invariant_preserved blank_event)
           (op_push (sample_event 1 40)) wrapped_queue Hinv).
Defined.

(** C6, empty semantics.  On an empty queue ([events_head = events_tail])
    [al_get_next_event] and [al_peek_next_event] return false and
    [al_drop_next_event] does nothing: each leaves the queue (indices,
    array, registry) as it was.  A queue just created is empty. *)
Theorem empty_queue_operations (junk : ALLEGRO_EVENT)
  (q : ALLEGRO_EVENT_QUEUE) (buf : ALLEGRO_EVENT) :
  events_head q = events_tail q →
  (∃ buf', al_get_next_event q (Some buf) = Some (false, buf', q))
  ∧ (∃ buf', al_peek_next_event q (Some buf) = Some (false, buf', q))
  ∧ al_drop_next_event q = Some q
  ∧ al_event_queue_is_empty q = true
  ∧ al_event_queue_is_empty (al_create_event_queue junk) = true.
Proof.
  intros Hempty.
  unfold al_get_next_event, al_peek_next_event, al_drop_next_event.
  rewrite !get_peek_or_drop_empty by done.
  split; [by eexists|]. split; [by eexists|]. split; [done|].
  split; [|done]. unfold al_event_queue_is_empty.
  by apply bool_decide_eq_true_2.
Qed.

Lemma empty_queue_operations_witness :
  events_head (al_flush_event_queue wrapped_queue)
  = events_tail (al_flush_event_queue wrapped_queue)
  ∧ (∃ buf', al_get_next_event (al_flush_event_queue wrapped_queue)
               (Some blank_event)
             = Some (false, buf', al_flush_event_queue wrapped_queue))
  ∧ (∃ buf', al_peek_next_event (al_flush_event_queue wrapped_queue)
               (Some blank_event)
             = Some (false, buf', al_flush_event_queue wrapped_queue))
  ∧ al_drop_next_event (al_flush_event_queue wrapped_queue)
    = Some (al_flush_event_queue wrapped_queue)
  ∧ al_event_queue_is_empty (al_flush_event_queue wrapped_queue) = true
  ∧ al_event_queue_is_empty (al_create_event_queue blank_event) = true.
Proof.
  split; [reflexivity|].
  exact (empty_queue_operations blank_event
           (al_flush_event_queue wrapped_queue) blank_event eq_refl).
Defined.

Lemma occurrences_absent (s : source_ptr) (l : list source_ptr) :
  s ∉ l → filter (λ x, x = s) l = [].
Proof.
  induction l as [|y l IH]; intros Hin; [done|].
  apply not_elem_of_cons in Hin as [Hne Hin].
  rewrite filter_cons_False by congruence. by apply IH.
Qed.

Lemma occurrences_NoDup (s : source_ptr) (l : list source_ptr) :
  NoDup l → s ∈ l → length (filter (λ x, x = s) l) = 1.
Proof.
  induction l as [|y l IH]; intros Hnd Hin.
  - by apply elem_of_nil in Hin.
  - apply NoDup_cons in Hnd as [Hy Hnd].
    destruct (decide (y = s)) as [->|Hne].
    + rewrite filter_cons_True by done.
      by rewrite occurrences_absent.
    + rewrite filter_cons_False by done.
      apply elem_of_cons in Hin as [->|Hin]; [done|]. by apply IH.
Qed.

(** C7, registration.  Registering a source twice leaves exactly one entry
    for it in the registry (the registry holding no source twice before),
    and the second call changes nothing and notifies nobody.
    Unregistering a source that is not registered changes nothing either
    (registry, array and indices) and notifies nobody. *)
Theorem registration_idempotent (junk : ALLEGRO_EVENT)
  (q q0 : ALLEGRO_EVENT_QUEUE) (s : source_ptr) :
  NoDup (sources q) → s ∉ sources q0 →
  (let q1 := (al_register_event_source q s).1 in
   al_register_event_source q1 s = (q1, [])
   ∧ length (filter (λ x, x = s) (sources q1)) = 1
   ∧ NoDup (sources q1))
  ∧ al_unregister_event_source junk q0 s = Some (q0, []).
Proof.
  intros Hnd Hout. split.
  - destruct (decide (s ∈ sources q)) as [Hin|Hin].
    + rewrite al_register_event_source_present by done. simpl.
      rewrite al_register_event_source_present by done.
      split; [done|]. split; [|done]. by apply occurrences_NoDup.
    + rewrite al_register_event_source_absent by done. simpl.
      rewrite al_register_event_source_present
        by (simpl; apply elem_of_app; right; apply list_elem_of_here).
      split; [done|]. split.
      * rewrite filter_app, length_app, occurrences_absent by done.
        by rewrite filter_cons_True.
      * apply NoDup_app. split; [done|]. split; [|apply NoDup_singleton].
        intros x Hx Hx'. apply list_elem_of_singleton in Hx'. by subst x.
  - unfold al_unregister_event_source.
    rewrite _al_vector_find_and_delete_absent by done.
    by destruct q0.
Qed.

Lemma registration_idempotent_witness :
  NoDup (sources wrapped_queue) ∧ (3%Z ∉ sources wrapped_queue)
  ∧ (let q1 := (al_register_event_source wrapped_queue 3).1 in
     al_register_event_source q1 3 = (q1, [])
     ∧ length (filter (λ x, x = 3%Z) (sources q1)) = 1
     ∧ NoDup (sources q1))
  ∧ al_unregister_event_source blank_event wrapped_queue 3
    = Some (wrapped_queue, []).
Proof.
  assert (Hnd : NoDup (sources wrapped_queue)).
  { apply (bool_decide_unpack _). vm_compute. exact I. }
  assert (Hout : 3%Z ∉ sources wrapped_queue).
  { apply (bool_decide_unpack _). vm_compute. exact I. }
  split; [exact Hnd|]. split; [exact Hout|].
  exact (registration_idempotent blank_event wrapped_queue wrapped_queue 3
           Hnd Hout).
Defined.

(** C8, peek.  On a queue that is not empty two successive calls of
    [al_peek_next_event] return the same record and leave the queue,
    [events_head] and [events_tail] included, as it was; a call of
    [al_get_next_event] after them returns that record and moves
    [events_tail] past it, the records behind it staying unread. *)
Theorem peek_then_get (q : ALLEGRO_EVENT_QUEUE) (buf : ALLEGRO_EVENT) :
  in_range q → events_head q ≠ events_tail q →
  ∃ e q',
    al_peek_next_event q (Some buf) = Some (true, Some e, q)
    ∧ al_peek_next_event q (Some e) = Some (true, Some e, q)
    ∧ al_get_next_event q (Some e) = Some (true, Some e, q')
    ∧ events q !! events_tail q = Some e
    ∧ events_tail q' = (events_tail q + 1) mod capacity q
    ∧ events_head q' = events_head q
    ∧ live q = e :: live q'.
Proof.
  intros Hr Hne.
  destruct (live q) as [|e l] eqn:Hlive.
  { by apply live_nonempty in Hlive. }
  destruct (live_cons q Hr Hne) as (e' & He' & Hcons).
  rewrite Hlive in Hcons. injection Hcons as <- Hl.
  exists e, (set_tail q ((events_tail q + 1) mod capacity q)).
  unfold al_peek_next_event, al_get_next_event.
  destruct (get_peek_or_drop_live q (Some buf) false e l Hr Hlive)
    as (-> & _).
  destruct (get_peek_or_drop_live q (Some e) false e l Hr Hlive)
    as (-> & _).
  destruct (get_peek_or_drop_live q (Some e) true e l Hr Hlive)
    as (-> & _).
  repeat (split; [done|]). by rewrite Hl.
Qed.

Lemma peek_then_get_witness :
  in_range wrapped_queue
  ∧ events_head wrapped_queue ≠ events_tail wrapped_queue
  ∧ ∃ e q',
      al_peek_next_event wrapped_queue (Some blank_event)
      = Some (true, Some e, wrapped_queue)
      ∧ al_peek_next_event wrapped_queue (Some e)
        = Some (true, Some e, wrapped_queue)
      ∧ al_get_next_event wrapped_queue (Some e) = Some (true, Some e, q')
      ∧ events wrapped_queue !! events_tail wrapped_queue = Some e
      ∧ events_tail q' = (events_tail wrapped_queue + 1) mod 4
      ∧ events_head q' = events_head wrapped_queue
      ∧ live wrapped_queue = e :: live q'.
Proof.
  assert (Hr : in_range wrapped_queue) by (split; simpl; lia).
  assert (Hne : events_head wrapped_queue ≠ events_tail wrapped_queue).
  { simpl. lia. }
  split; [exact Hr|]. split; [exact Hne|].
  exact (peek_then_get wrapped_queue blank_event Hr Hne).
Defined.


(** C9, timed wait with no time to wait.  Let a wait on a deadline that is
    not in the future report a timeout (-1) at once and leave the queue as
    it is.  Then [al_wait_for_event_timed] called with a zero or negative
    number of seconds checks the queue once: on a queue that is not empty
    it returns true without waiting and, when [ret_event] is not NULL,
    takes the oldest event out into it (with NULL the queue is left as it
    is); on an empty queue it makes one wait, returns false and changes
    neither the queue nor the buffer. *)
Theorem timed_wait_zero_timeout
  (timedwait : ALLEGRO_TIMEOUT → nat → ALLEGRO_EVENT_QUEUE
               → Z * ALLEGRO_EVENT_QUEUE)
  (fuel : nat) (q : ALLEGRO_EVENT_QUEUE)
  (ret_event : option ALLEGRO_EVENT) (secs : float) :
  (∀ t n q0, (timeout_secs t <=? 0)%float = true →
             timedwait t n q0 = ((-1)%Z, q0)) →
  (secs <=? 0)%float = true →
  in_range q → 2 ≤ fuel →
  if al_event_queue_is_empty q then
    al_wait_for_event_timed timedwait fuel q ret_event secs
    = Some (false, ret_event, q, 1)
  else
    ∃ e q',
      q' = set_tail q ((events_tail q + 1) mod capacity q)
      ∧ live q = e :: live q'
      ∧ al_wait_for_event_timed timedwait fuel q ret_event secs
        = match ret_event with
          | Some _ => Some (true, Some e, q', 0)
          | None => Some (true, None, q, 0)
          end.
Proof.
  intros Henv Hsecs Hr Hfuel.
  destruct fuel as [|[|fuel]]; [lia|lia|].
  unfold al_wait_for_event_timed.
  set (timeout := if (secs <? 0)%float then al_init_timeout 0
                  else al_init_timeout secs).
  assert (Hpast : (timeout_secs timeout <=? 0)%float = true).
  { subst timeout. by destruct (secs <? 0)%float. }
  clearbody timeout.
  unfold do_wait_for_event. cbn [do_wait_loop].
  destruct (al_event_queue_is_empty q) eqn:Hempty.
  - cbn [andb negb Z.eqb]. rewrite Henv by done.
    rewrite Hempty. cbn [andb negb Z.eqb Pos.eqb]. done.
  - cbn [andb mbind option_bind Z.eqb].
    apply bool_decide_eq_false_1 in Hempty.
    destruct (live_cons q Hr Hempty) as (e & He & Hcons).
    eexists e, _. split; [done|]. split; [done|].
    destruct ret_event as [b|]; [|done].
    rewrite get_next_event_if_any_nonempty by done.
    cbn [mbind option_bind].
    change (events (set_tail q ((events_tail q + 1) mod capacity q)))
      with (events q).
    by rewrite (load_Some _ _ _ He).
Qed.

Lemma timed_wait_zero_timeout_witness :
  (∀ t n q0, (timeout_secs t <=? 0)%float = true →
             prompt_timedwait t n q0 = ((-1)%Z, q0))
  ∧ ((-1) <=? 0)%float = true
  ∧ in_range wrapped_queue ∧ 2 ≤ 2
  ∧ ∃ e q',
      q' = set_tail wrapped_queue ((events_tail wrapped_queue + 1) mod 4)
      ∧ live wrapped_queue = e :: live q'
      ∧ al_wait_for_event_timed prompt_timedwait 2 wrapped_queue
          (Some blank_event) (-1)%float
        = Some (true, Some e, q', 0).
Proof.
  assert (Henv : ∀ t n q0, (timeout_secs t <=? 0)%float = true →
                           prompt_timedwait t n q0 = ((-1)%Z, q0)).
  { intros t n q0 Hpast. unfold prompt_timedwait. by rewrite Hpast. }
  assert (Hsecs : ((-1) <=? 0)%float = true) by reflexivity.
  assert (Hr : in_range wrapped_queue) by (split; simpl; lia).
  assert (Hfuel : 2 ≤ 2) by lia.
  split; [exact Henv|]. split; [exact Hsecs|]. split; [exact Hr|].
  split; [exact Hfuel|].
  exact (timed_wait_zero_timeout prompt_timedwait 2 wrapped_queue
           (Some blank_event) (-1)%float Henv Hsecs Hr Hfuel).
Defined.

(** C10, the caller's buffer.  On an empty queue [al_get_next_event] and
    [al_peek_next_event] do not write to the buffer [ret_event] points to:
    it holds after the call what it held before. *)
Theorem empty_queue_leaves_ret_event (q : ALLEGRO_EVENT_QUEUE)
  (buf : ALLEGRO_EVENT) :
  al_event_queue_is_empty q = true →
  al_get_next_event q (Some buf) = Some (false, Some buf, q)
  ∧ al_peek_next_event q (Some buf) = Some (false, Some buf, q).
Proof.
  intros Hempty%bool_decide_eq_true_1.
  unfold al_get_next_event, al_peek_next_event.
  by rewrite !get_peek_or_drop_empty.
Qed.

Lemma empty_queue_leaves_ret_event_witness :
  al_event_queue_is_empty (al_create_event_queue blank_event) = true
  ∧ al_get_next_event (al_create_event_queue blank_event)
      (Some (sample_event 1 10))
    = Some (false, Some (sample_event 1 10),
            al_create_event_queue blank_event)
  ∧ al_peek_next_event (al_create_event_queue blank_event)
      (Some (sample_event 1 10))
    = Some (false, Some (sample_event 1 10),
            al_create_event_queue blank_event).
Proof.
  split; [reflexivity|].
  exact (empty_queue_leaves_ret_event (al_create_event_queue blank_event)
           (sample_event 1 10) eq_refl).
Defined.

(** ** Further properties of the code *)

Lemma kept_absent (source : source_ptr) (l : list ALLEGRO_EVENT) :
  source ∉ any_source <$> l → kept source l = l.
Proof.
  unfold kept. induction l as [|e l IH]; intros Hin; [done|].
  rewrite fmap_cons in Hin. apply not_elem_of_cons in Hin as [Hne Hin].
  rewrite filter_cons_True by congruence. f_equal. by apply IH.
Qed.

(** What [discard_events_of_source] leaves, whether or not the source has
    events in the queue. *)
Lemma discarded_live (junk : ALLEGRO_EVENT) (q : ALLEGRO_EVENT_QUEUE)
  (source : source_ptr) :
  in_range q →
  in_range (discarded junk q source)
  ∧ live (discarded junk q source) = kept source (live q)
  ∧ sources (discarded junk q source) = sources q.
Proof.
  intros Hr.
  destruct (decide (source ∈ any_source <$> live q)) as [Hin|Hin].
  - destruct (discarded_spec junk q source Hin) as (Hr' & Hl & Hs & _).
    done.
  - rewrite discarded_absent by done. by rewrite kept_absent.
Qed.

Lemma al_unregister_event_source_present (junk : ALLEGRO_EVENT)
  (q : ALLEGRO_EVENT_QUEUE) (source : source_ptr) :
  in_range q → source ∈ sources q →
  ∃ q',
    al_unregister_event_source junk q source
    = Some (q', [on_unregistration_from_queue source])
    ∧ in_range q'
    ∧ live q' = kept source (live q)
    ∧ sources q' = (_al_vector_find_and_delete (sources q) source).2.
Proof.
  intros Hr Hin. unfold al_unregister_event_source.
  pose proof (_al_vector_find_and_delete_present (sources q) source Hin)
    as Hfound.
  destruct (_al_vector_find_and_delete (sources q) source) as [found v].
  simpl in Hfound. subst found.
  assert (Hr1 : in_range (set_sources q v)) by done.
  rewrite discard_events_of_source_spec by done. cbn [mbind option_bind].
  destruct (discarded_live junk (set_sources q v) source Hr1)
    as (Hr' & Hlive & Hsrc).
  eexists. split; [done|]. split; [done|]. split; [done|]. done.
Qed.

Lemma al_unregister_event_source_absent (junk : ALLEGRO_EVENT)
  (q : ALLEGRO_EVENT_QUEUE) (source : source_ptr) :
  source ∉ sources q →
  al_unregister_event_source junk q source = Some (q, []).
Proof.
  intros Hout. unfold al_unregister_event_source.
  rewrite _al_vector_find_and_delete_absent by done. by destruct q.
Qed.

Lemma get_peek_or_drop_list (q : ALLEGRO_EVENT_QUEUE)
  (do_copy : option ALLEGRO_EVENT) (delete : bool) :
  in_range q →
  ∃ r b q',
    get_peek_or_drop_next_event q do_copy delete = Some (r, b, q')
    ∧ in_range q'
    ∧ sources q' = sources q
    ∧ events q' = events q
    ∧ events_head q' = events_head q
    ∧ live q' = (if delete then drop 1 (live q) else live q).
Proof.
  intros Hr.
  destruct (decide (events_head q = events_tail q)) as [Heq|Hne].
  - rewrite get_peek_or_drop_empty by done. eexists _, _, _.
    split; [done|]. repeat (split; [done|]).
    rewrite live_empty by done. by destruct delete.
  - destruct (live q) as [|e l] eqn:Hlive.
    { by apply live_nonempty in Hlive. }
    destruct (get_peek_or_drop_live q do_copy delete e l Hr Hlive)
      as (Hget & Hr' & Hlive').
    rewrite Hget. eexists _, _, _. split; [done|]. split; [done|].
    destruct delete; simpl; by rewrite ?drop_0.
Qed.

(** Every operation acts on the registry and on the unread events as
    [list_queue_op] does on the two lists. *)
Lemma run_op_list_queue (junk : ALLEGRO_EVENT) (op : queue_op)
  (q : ALLEGRO_EVENT_QUEUE) :
  in_range q →
  ∃ q',
    run_op junk op q = Some q'
    ∧ in_range q'
    ∧ (sources q', live q') = list_queue_op op (sources q, live q).
Proof.
  intros Hr. pose proof Hr as [Hh Ht].
  destruct op as [e|ret_event|ret_event| | |source|source|source];
    cbn [run_op list_queue_op].
  - destruct (_al_event_queue_push_event_spec junk q e Hr)
      as (q' & Hpush & Hr' & Hlive & Hsrc & _).
    exists q'. split; [done|]. split; [done|]. by rewrite Hlive, Hsrc.
  - destruct (get_peek_or_drop_list q ret_event true Hr)
      as (r & b & q' & Hget & Hr' & Hsrc & _ & _ & Hlive).
    unfold al_get_next_event. rewrite Hget. exists q'.
    split; [done|]. split; [done|]. by rewrite Hlive, Hsrc.
  - destruct (get_peek_or_drop_list q ret_event false Hr)
      as (r & b & q' & Hget & Hr' & Hsrc & _ & _ & Hlive).
    unfold al_peek_next_event. rewrite Hget. exists q'.
    split; [done|]. split; [done|]. by rewrite Hlive, Hsrc.
  - destruct (get_peek_or_drop_list q None true Hr)
      as (r & b & q' & Hget & Hr' & Hsrc & _ & _ & Hlive).
    unfold al_drop_next_event. rewrite Hget. exists q'.
    split; [done|]. split; [done|]. by rewrite Hlive, Hsrc.
  - eexists. split; [done|].
    split; [split; simpl; lia|]. by rewrite live_empty.
  - rewrite discard_events_of_source_spec by done.
    destruct (discarded_live junk q source Hr) as (Hr' & Hlive & Hsrc).
    eexists. split; [done|]. split; [done|]. by rewrite Hlive, Hsrc.
  - eexists. split; [done|].
    destruct (decide (source ∈ sources q)) as [Hin|Hin].
    + rewrite al_register_event_source_present by done.
      by rewrite bool_decide_eq_true_2.
    + rewrite al_register_event_source_absent by done.
      by rewrite bool_decide_eq_false_2.
  - destruct (decide (source ∈ sources q)) as [Hin|Hin].
    + destruct (al_unregister_event_source_present junk q source Hr Hin)
        as (q' & Hun & Hr' & Hlive & Hsrc).
      rewrite Hun. cbn [mbind option_bind]. exists q'.
      split; [done|]. split; [done|].
      by rewrite bool_decide_eq_true_2, Hlive, Hsrc.
    + rewrite al_unregister_event_source_absent by done.
      cbn [mbind option_bind]. exists q.
      split; [done|]. split; [done|]. by rewrite bool_decide_eq_false_2.
Qed.

(** X1, runs of operations.  Any sequence of pushes, gets, peeks, drops,
    flushes, discards, registrations and unregistrations, run on a queue
    whose indices are slots of its array, returns, and leaves as registry
    and as unread events what the same operations leave of the two lists
    when run on plain lists: appending for a push, dropping the first for a
    get or a drop, emptying for a flush, filtering for a discard. *)
Theorem operations_act_on_lists (junk : ALLEGRO_EVENT)
  (ops : list queue_op) (q : ALLEGRO_EVENT_QUEUE) :
  in_range q →
  ∃ q',
    run_ops junk ops q = Some q'
    ∧ in_range q'
    ∧ (sources q', live q')
      = foldl (λ st op, list_queue_op op st) (sources q, live q) ops.
Proof.
  revert q. induction ops as [|op ops IH]; intros q Hr; simpl.
  - by exists q.
  - destruct (run_op_list_queue junk op q Hr) as (q1 & Hop & Hr1 & Hst).
    rewrite Hop. cbn [mbind option_bind].
    destruct (IH q1 Hr1) as (q' & Hrun & Hr' & Hst').
    exists q'. split; [done|]. split; [done|]. by rewrite Hst', Hst.
Qed.

Lemma operations_act_on_lists_witness :
  in_range wrapped_queue
  ∧ ∃ q',
      run_ops blank_event
        [op_get None; op_push (sample_event 1 40); op_unregister 2;
         op_push (sample_event 2 50); op_peek None; op_flush;
         op_register 5; op_push (sample_event 5 60)]
        wrapped_queue = Some q'
      ∧ in_range q'
      ∧ (sources q', live q') = ([1; 5]%Z, [sample_event 5 60]).
Proof.
  assert (Hr : in_range wrapped_queue) by (split; simpl; lia).
  split; [exact Hr|].
  exact (operations_act_on_lists blank_event
           [op_get None; op_push (sample_event 1 40); op_unregister 2;
            op_push (sample_event 2 50); op_peek None; op_flush;
            op_register 5; op_push (sample_event 5 60)]
           wrapped_queue Hr).
Defined.


(** X3, [contains_event_of_source].  On a queue whose indices are slots of
    its array the scan ends, and it returns true exactly when one of the
    unread events comes from the source; what the slots outside the unread
    range hold does not count. *)
Theorem contains_event_of_source_iff (q : ALLEGRO_EVENT_QUEUE)
  (source : source_ptr) :
  in_range q →
  ∃ b, contains_event_of_source q source = Some b
       ∧ (b = true ↔ ∃ e, e ∈ live q ∧ any_source e = source).
Proof.
  intros Hr. rewrite contains_event_of_source_spec by done.
  eexists. split; [done|].
  rewrite bool_decide_eq_true, list_elem_of_fmap.
  split; intros (e & H1 & H2); exists e; by split.
Qed.

Lemma contains_event_of_source_iff_witness :
  in_range wrapped_queue
  ∧ ∃ b, contains_event_of_source wrapped_queue 1 = Some b
         ∧ (b = true
            ↔ ∃ e, e ∈ live wrapped_queue ∧ any_source e = 1%Z).
Proof.
  assert (Hr : in_range wrapped_queue) by (split; simpl; lia).
  split; [exact Hr|].
  exact (contains_event_of_source_iff wrapped_queue 1 Hr).
Defined.

(** X4, [discard_events_of_source].  On a queue whose indices are slots of
    its array the function returns; the unread events are then those of
    the other sources, in their order, the registry is as before, and the
    queue holds no event of the source.  When the queue held no event of
    the source to begin with, it is returned as it was: array, indices and
    capacity. *)
Theorem discard_events_of_source_keeps_others (junk : ALLEGRO_EVENT)
  (q : ALLEGRO_EVENT_QUEUE) (source : source_ptr) :
  in_range q →
  ∃ q',
    discard_events_of_source junk q source = Some q'
    ∧ in_range q'
    ∧ live q' = filter (λ e, any_source e ≠ source) (live q)
    ∧ sources q' = sources q
    ∧ contains_event_of_source q' source = Some false
    ∧ ((∀ e, e ∈ live q → any_source e ≠ source) → q' = q).
Proof.
  intros Hr. rewrite discard_events_of_source_spec by done.
  destruct (discarded_live junk q source Hr) as (Hr' & Hlive & Hsrc).
  eexists. split; [done|]. split; [done|]. split; [done|]. split; [done|].
  split.
  - rewrite contains_event_of_source_spec by done. f_equal.
    apply bool_decide_eq_false_2. rewrite Hlive. apply kept_no_source.
  - intros Hnone. apply discarded_absent.
    intros (e & Heq & He)%list_elem_of_fmap. by apply (Hnone e).
Qed.

Lemma discard_events_of_source_keeps_others_witness :
  in_range wrapped_queue
  ∧ ∃ q',
      discard_events_of_source blank_event wrapped_queue 2 = Some q'
      ∧ in_range q'
      ∧ live q' = filter (λ e, any_source e ≠ 2%Z) (live wrapped_queue)
      ∧ sources q' = sources wrapped_queue
      ∧ contains_event_of_source q' 2 = Some false
      ∧ ((∀ e, e ∈ live wrapped_queue → any_source e ≠ 2%Z)
         → q' = wrapped_queue).
Proof.
  assert (Hr : in_range wrapped_queue) by (split; simpl; lia).
  split; [exact Hr|].
  exact (discard_events_of_source_keeps_others blank_event wrapped_queue 2
           Hr).
Defined.

Lemma _al_event_queue_push_event_not_full (junk : ALLEGRO_EVENT)
  (q : ALLEGRO_EVENT_QUEUE) (e : ALLEGRO_EVENT) :
  in_range q → ¬ is_full q →
  _al_event_queue_push_event junk q e
  = Some (set_head (set_events q (<[events_head q:=e]> (events q)))
            ((events_head q + 1) mod capacity q)).
Proof.
  intros [Hh Ht] Hnf. unfold _al_event_queue_push_event, alloc_event.
  rewrite circ_array_next_Some by lia. cbn [mbind option_bind].
  fold (is_full q). rewrite decide_False by done.
  cbn [mbind option_bind].
  rewrite _al_vector_ref_Some by done. cbn [mbind option_bind]. simpl.
  by rewrite store_Some.
Qed.

(** X5, [_al_event_queue_push_event].  On a queue whose indices are slots
    of its array a push returns and appends its event to the unread ones;
    it leaves the registry and [events_tail] alone.  The array doubles
    exactly when the buffer is full; otherwise the push writes the slot
    [events_head], nothing else, and moves [events_head] to the next
    index. *)
Theorem push_appends (junk : ALLEGRO_EVENT) (q : ALLEGRO_EVENT_QUEUE)
  (e : ALLEGRO_EVENT) :
  in_range q →
  ∃ q',
    _al_event_queue_push_event junk q e = Some q'
    ∧ in_range q'
    ∧ live q' = live q ++ [e]
    ∧ sources q' = sources q
    ∧ events_tail q' = events_tail q
    ∧ (is_full q → capacity q' = capacity q * 2)
    ∧ (¬ is_full q →
       events q' = <[events_head q:=e]> (events q)
       ∧ events_head q' = (events_head q + 1) mod capacity q).
Proof.
  intros Hr.
  destruct (_al_event_queue_push_event_spec junk q e Hr)
    as (q' & Hpush & Hr' & Hlive & Hsrc & Htail & Hcap).
  exists q'. repeat (split; [done|]). split.
  - intros Hfull. by rewrite Hcap, decide_True.
  - intros Hnf.
    rewrite _al_event_queue_push_event_not_full in Hpush by done.
    by injection Hpush as <-.
Qed.

Lemma push_appends_witness :
  in_range wrapped_queue
  ∧ ∃ q',
      _al_event_queue_push_event blank_event wrapped_queue
        (sample_event 1 40) = Some q'
      ∧ in_range q'
      ∧ live q' = live wrapped_queue ++ [sample_event 1 40]
      ∧ sources q' = sources wrapped_queue
      ∧ events_tail q' = events_tail wrapped_queue
      ∧ (is_full wrapped_queue → capacity q' = capacity wrapped_queue * 2)
      ∧ (¬ is_full wrapped_queue →
         events q' = <[events_head wrapped_queue:=sample_event 1 40]>
                       (events wrapped_queue)
         ∧ events_head q'
           = (events_head wrapped_queue + 1) mod capacity wrapped_queue).
Proof.
  assert (Hr : in_range wrapped_queue) by (split; simpl; lia).
  split; [exact Hr|].
  exact (push_appends blank_event wrapped_queue (sample_event 1 40) Hr).
Defined.

(** X6, occupancy.  On a queue whose indices are slots of its array the
    buffer is full, so that the next push grows the array, exactly when
    all slots but one hold unread events; [al_event_queue_is_empty] is true
    exactly when there is no unread event; and the number of unread events
    is [(head - tail) mod C], which is below the capacity. *)
Theorem occupancy (q : ALLEGRO_EVENT_QUEUE) :
  in_range q →
  (is_full q ↔ length (live q) + 1 = capacity q)
  ∧ (al_event_queue_is_empty q = true ↔ live q = [])
  ∧ Z.of_nat (length (live q)) = logical_size q
  ∧ length (live q) < capacity q.
Proof.
  intros Hr. pose proof Hr as [Hh Ht].
  split; [|split; [|split]].
  - unfold is_full. rewrite circ_next_lt, length_live by done.
    repeat case_decide; lia.
  - unfold al_event_queue_is_empty. rewrite bool_decide_eq_true. split.
    + apply live_empty.
    + intros Hnil. destruct (decide (events_head q = events_tail q)); [done|].
      by apply live_nonempty in Hnil.
  - by rewrite logical_size_live.
  - by apply length_live_lt.
Qed.

Lemma occupancy_witness :
  in_range wrapped_queue
  ∧ (is_full wrapped_queue ↔ length (live wrapped_queue) + 1 = 4)
  ∧ (al_event_queue_is_empty wrapped_queue = true ↔ live wrapped_queue = [])
  ∧ Z.of_nat (length (live wrapped_queue)) = logical_size wrapped_queue
  ∧ length (live wrapped_queue) < 4.
Proof.
  assert (Hr : in_range wrapped_queue) by (split; simpl; lia).
  split; [exact Hr|]. exact (occupancy wrapped_queue Hr).
Defined.

(** X7, [al_drop_next_event].  On a queue that is not empty a drop removes
    the oldest unread event and nothing else: it leaves the queue that
    [al_get_next_event] leaves, the array and [events_head] included. *)
Theorem drop_removes_oldest (q : ALLEGRO_EVENT_QUEUE)
  (buf e : ALLEGRO_EVENT) (l : list ALLEGRO_EVENT) :
  in_range q → live q = e :: l →
  ∃ q',
    al_drop_next_event q = Some q'
    ∧ al_get_next_event q (Some buf) = Some (true, Some e, q')
    ∧ live q' = l
    ∧ events q' = events q
    ∧ events_head q' = events_head q
    ∧ sources q' = sources q.
Proof.
  intros Hr Hlive.
  destruct (get_peek_or_drop_live q None true e l Hr Hlive)
    as (Hdrop & _ & Hlive').
  destruct (get_peek_or_drop_live q (Some buf) true e l Hr Hlive)
    as (Hget & _ & _).
  unfold al_drop_next_event, al_get_next_event. rewrite Hdrop, Hget.
  eexists. split; [done|]. split; [done|]. done.
Qed.

Lemma drop_removes_oldest_witness :
  in_range wrapped_queue
  ∧ live wrapped_queue
    = sample_event 1 10 :: [sample_event 2 20; sample_event 2 30]
  ∧ ∃ q',
      al_drop_next_event wrapped_queue = Some q'
      ∧ al_get_next_event wrapped_queue (Some blank_event)
        = Some (true, Some (sample_event 1 10), q')
      ∧ live q' = [sample_event 2 20; sample_event 2 30]
      ∧ events q' = events wrapped_queue
      ∧ events_head q' = events_head wrapped_queue
      ∧ sources q' = sources wrapped_queue.
Proof.
  assert (Hr : in_range wrapped_queue) by (split; simpl; lia).
  assert (Hlive : live wrapped_queue
                  = sample_event 1 10
                    :: [sample_event 2 20; sample_event 2 30])
    by reflexivity.
  split; [exact Hr|]. split; [exact Hlive|].
  exact (drop_removes_oldest wrapped_queue blank_event (sample_event 1 10)
           [sample_event 2 20; sample_event 2 30] Hr Hlive).
Defined.

(** X8, [al_flush_event_queue].  A flush keeps the array and the registry
    and forgets the unread events: events pushed after it come back from
    as many gets, in their order, and none of the events queued before the
    flush comes back with them. *)
Theorem flush_forgets_queued_events (junk : ALLEGRO_EVENT)
  (q : ALLEGRO_EVENT_QUEUE) (es : list ALLEGRO_EVENT)
  (buf : ALLEGRO_EVENT) :
  in_range q →
  events (al_flush_event_queue q) = events q
  ∧ sources (al_flush_event_queue q) = sources q
  ∧ live (al_flush_event_queue q) = []
  ∧ ∃ q1 q2,
      push_events junk (al_flush_event_queue q) es = Some q1
      ∧ get_events (length es) q1 (Some buf)
        = Some ((λ e, (true, Some e)) <$> es, q2)
      ∧ al_event_queue_is_empty q2 = true.
Proof.
  intros [Hh Ht].
  assert (Hr : in_range (al_flush_event_queue q)) by (split; simpl; lia).
  split; [done|]. split; [done|]. split; [by apply live_empty|].
  destruct (push_events_spec junk es _ Hr) as (q1 & Hpush & Hr1 & Hlive1 & _).
  rewrite (live_empty (al_flush_event_queue q)) in Hlive1 by done.
  simpl in Hlive1.
  destruct (get_events_spec es q1 buf [] Hr1) as (q2 & Hget & Hr2 & Hlive2 & _).
  { by rewrite app_nil_r. }
  exists q1, q2. split; [done|]. split; [done|].
  unfold al_event_queue_is_empty. apply bool_decide_eq_true_2.
  destruct (decide (events_head q2 = events_tail q2)) as [|Hne]; [done|].
  by apply live_nonempty in Hne.
Qed.

Lemma flush_forgets_queued_events_witness :
  in_range wrapped_queue
  ∧ events (al_flush_event_queue wrapped_queue) = events wrapped_queue
  ∧ sources (al_flush_event_queue wrapped_queue) = sources wrapped_queue
  ∧ live (al_flush_event_queue wrapped_queue) = []
  ∧ ∃ q1 q2,
      push_events blank_event (al_flush_event_queue wrapped_queue)
        [sample_event 1 40; sample_event 2 50] = Some q1
      ∧ get_events 2 q1 (Some blank_event)
        = Some ([(true, Some (sample_event 1 40));
                 (true, Some (sample_event 2 50))], q2)
      ∧ al_event_queue_is_empty q2 = true.
Proof.
  assert (Hr : in_range wrapped_queue) by (split; simpl; lia).
  split; [exact Hr|].
  exact (flush_forgets_queued_events blank_event wrapped_queue
           [sample_event 1 40; sample_event 2 50] blank_event Hr).
Defined.

(** *** The registry *)

Lemma _al_vector_find_and_delete_snoc {A} `{EqDecision A}
  (vec : list A) (x : A) :
  x ∉ vec → _al_vector_find_and_delete (vec ++ [x]) x = (true, vec).
Proof.
  induction vec as [|y vec IH]; intros Hout; simpl.
  - by rewrite decide_True.
  - apply not_elem_of_cons in Hout as [Hne Hout].
    rewrite decide_False by done. by rewrite IH.
Qed.

Lemma _al_vector_find_and_delete_subset {A} `{EqDecision A}
  (vec : list A) (x t : A) :
  t ∈ (_al_vector_find_and_delete vec x).2 → t ∈ vec.
Proof.
  induction vec as [|y vec IH]; simpl; [done|].
  case_decide as Heq.
  - simpl. apply list_elem_of_further.
  - destruct (_al_vector_find_and_delete vec x) as [found rest] eqn:Hfd.
    simpl in *. intros [->|Hin]%elem_of_cons.
    + apply list_elem_of_here.
    + apply list_elem_of_further. by apply IH.
Qed.

Lemma _al_vector_find_and_delete_NoDup {A} `{EqDecision A}
  (vec : list A) (x : A) :
  NoDup vec →
  NoDup (_al_vector_find_and_delete vec x).2
  ∧ ∀ t, t ∈ (_al_vector_find_and_delete vec x).2 ↔ t ∈ vec ∧ t ≠ x.
Proof.
  induction vec as [|y vec IH]; intros Hnd; simpl.
  - split; [done|]. intros t. split; [by intros ?%elem_of_nil|].
    by intros [?%elem_of_nil _].
  - apply NoDup_cons in Hnd as [Hy Hnd]. destruct (IH Hnd) as [IHnd IHin].
    case_decide as Heq.
    + subst y. simpl. split; [done|]. intros t. rewrite elem_of_cons.
      split.
      * intros Hin. split; [by right|]. by intros ->.
      * intros [[->|Hin] Hne]; done.
    + pose proof (_al_vector_find_and_delete_subset vec x y) as Hsub.
      destruct (_al_vector_find_and_delete vec x) as [found rest] eqn:Hfd.
      simpl in *. split.
      * apply NoDup_cons. split; [|done]. intros Hin. by apply Hy, Hsub.
      * intros t. rewrite !elem_of_cons, IHin. split.
        -- intros [->|[Hin Hne]]; [by split; [left|]|by split; [right|]].
        -- intros [[->|Hin] Hne]; [by left|by right].
Qed.

(** X9, registering and unregistering.  Registering a source that is not
    registered and unregistering it again gives back the queue as it was,
    registry, array and indices, when the queue holds no event of that
    source; the second call notifies the source. *)
Theorem register_unregister_round_trip (junk : ALLEGRO_EVENT)
  (q : ALLEGRO_EVENT_QUEUE) (s : source_ptr) :
  in_range q → s ∉ sources q → (∀ e, e ∈ live q → any_source e ≠ s) →
  al_register_event_source q s
  = (set_sources q (sources q ++ [s]), [on_registration_to_queue s])
  ∧ al_unregister_event_source junk (al_register_event_source q s).1 s
    = Some (q, [on_unregistration_from_queue s]).
Proof.
  intros Hr Hout Hnone.
  rewrite al_register_event_source_absent by done. split; [done|].
  unfold al_unregister_event_source. simpl.
  rewrite _al_vector_find_and_delete_snoc by done.
  replace (set_sources (set_sources q (sources q ++ [s])) (sources q))
    with q by by destruct q.
  rewrite discard_events_of_source_spec by done. cbn [mbind option_bind].
  rewrite discarded_absent; [done|].
  intros (e & Heq & He)%list_elem_of_fmap. by apply (Hnone e).
Qed.

Lemma register_unregister_round_trip_witness :
  in_range wrapped_queue ∧ (5%Z ∉ sources wrapped_queue)
  ∧ (∀ e, e ∈ live wrapped_queue → any_source e ≠ 5%Z)
  ∧ al_register_event_source wrapped_queue 5
    = (set_sources wrapped_queue (sources wrapped_queue ++ [5%Z]),
       [on_registration_to_queue 5])
  ∧ al_unregister_event_source blank_event
      (al_register_event_source wrapped_queue 5).1 5
    = Some (wrapped_queue, [on_unregistration_from_queue 5]).
Proof.
  assert (Hr : in_range wrapped_queue) by (split; simpl; lia).
  assert (Hout : 5%Z ∉ sources wrapped_queue).
  { apply (bool_decide_unpack _). vm_compute. exact I. }
  assert (Hnone : ∀ e, e ∈ live wrapped_queue → any_source e ≠ 5%Z).
  { intros e He Heq.
    assert (Hin : 5%Z ∈ any_source <$> live wrapped_queue).
    { apply list_elem_of_fmap. by exists e. }
    revert Hin. apply (bool_decide_unpack _). vm_compute. exact I. }
  split; [exact Hr|]. split; [exact Hout|]. split; [exact Hnone|].
  exact (register_unregister_round_trip blank_event wrapped_queue 5
           Hr Hout Hnone).
Defined.

(** X10, unregistering a registered source.  With a registry that holds no
    source twice, unregistering a registered source returns, notifies the
    source, takes it out of the registry and leaves the other sources
    registered; the unread events of the other sources stay, in their
    order, whether or not the source had events in the queue. *)
Theorem unregister_removes_registration (junk : ALLEGRO_EVENT)
  (q : ALLEGRO_EVENT_QUEUE) (s : source_ptr) :
  in_range q → NoDup (sources q) → s ∈ sources q →
  ∃ q',
    al_unregister_event_source junk q s
    = Some (q', [on_unregistration_from_queue s])
    ∧ in_range q'
    ∧ (s ∉ sources q')
    ∧ (∀ t, t ∈ sources q' ↔ t ∈ sources q ∧ t ≠ s)
    ∧ NoDup (sources q')
    ∧ live q' = filter (λ e, any_source e ≠ s) (live q).
Proof.
  intros Hr Hnd Hin.
  destruct (al_unregister_event_source_present junk q s Hr Hin)
    as (q' & Hun & Hr' & Hlive & Hsrc).
  destruct (_al_vector_find_and_delete_NoDup (sources q) s Hnd)
    as [Hnd' Hmem].
  rewrite <- Hsrc in Hnd', Hmem.
  exists q'. split; [done|]. split; [done|].
  split. { intros [_ Hne]%Hmem. done. }
  done.
Qed.

Lemma unregister_removes_registration_witness :
  in_range wrapped_queue ∧ NoDup (sources wrapped_queue)
  ∧ 2%Z ∈ sources wrapped_queue
  ∧ ∃ q',
      al_unregister_event_source blank_event wrapped_queue 2
      = Some (q', [on_unregistration_from_queue 2])
      ∧ in_range q'
      ∧ (2%Z ∉ sources q')
      ∧ (∀ t, t ∈ sources q' ↔ t ∈ sources wrapped_queue ∧ t ≠ 2%Z)
      ∧ NoDup (sources q')
      ∧ live q' = filter (λ e, any_source e ≠ 2%Z) (live wrapped_queue).
Proof.
  assert (Hr : in_range wrapped_queue) by (split; simpl; lia).
  assert (Hnd : NoDup (sources wrapped_queue)).
  { apply (bool_decide_unpack _). vm_compute. exact I. }
  assert (Hin : 2%Z ∈ sources wrapped_queue).
  { apply (bool_decide_unpack _). vm_compute. exact I. }
  split; [exact Hr|]. split; [exact Hnd|]. split; [exact Hin|].
  exact (unregister_removes_registration blank_event wrapped_queue 2
           Hr Hnd Hin).
Defined.

(** X11, [al_register_event_source].  After the call the source is
    registered and the registry holds it and the sources it held before,
    without a duplicate if it had none; a source that was not registered is
    appended and notified, one that was is not notified again.  The call
    leaves the array and both indices alone. *)
Theorem register_adds_source (q : ALLEGRO_EVENT_QUEUE) (s : source_ptr) :
  s ∈ sources (al_register_event_source q s).1
  ∧ (∀ t, t ∈ sources (al_register_event_source q s).1
          ↔ t = s ∨ t ∈ sources q)
  ∧ (NoDup (sources q) → NoDup (sources (al_register_event_source q s).1))
  ∧ (al_register_event_source q s).2
    = (if bool_decide (s ∈ sources q) then []
       else [on_registration_to_queue s])
  ∧ (s ∉ sources q →
     sources (al_register_event_source q s).1 = sources q ++ [s])
  ∧ events (al_register_event_source q s).1 = events q
  ∧ events_head (al_register_event_source q s).1 = events_head q
  ∧ events_tail (al_register_event_source q s).1 = events_tail q.
Proof.
  destruct (decide (s ∈ sources q)) as [Hin|Hout].
  - rewrite al_register_event_source_present by done. simpl.
    rewrite bool_decide_eq_true_2 by done.
    split; [done|]. split.
    { intros t. split; [by right|]. by intros [->|?]. }
    done.
  - rewrite al_register_event_source_absent by done. simpl.
    rewrite bool_decide_eq_false_2 by done.
    split. { apply elem_of_app. right. apply list_elem_of_here. }
    split.
    { intros t. rewrite elem_of_app, list_elem_of_singleton.
      split; intros [?|?]; [by right|by left|by right|by left]. }
    split; [|done].
    intros Hnd. apply NoDup_app. split; [done|].
    split; [|apply NoDup_singleton].
    intros x Hx Hx'. apply list_elem_of_singleton in Hx'. by subst x.
Qed.

(** *** Destroying a queue *)

Lemma filter_all {A} (P : A → Prop) `{!∀ x, Decision (P x)} (l : list A) :
  (∀ x, P x) → filter P l = l.
Proof.
  intros HP. induction l as [|x l IH]; [done|].
  rewrite filter_cons_True by done. by rewrite IH.
Qed.

Lemma kept_then_filter (l : list source_ptr) (s : source_ptr)
  (L : list ALLEGRO_EVENT) :
  filter (λ e, any_source e ∉ l) (kept s L)
  = filter (λ e, any_source e ∉ l ++ [s]) L.
Proof.
  unfold kept. rewrite list_filter_filter. apply list_filter_iff.
  intros e. rewrite not_elem_of_app. split.
  - intros [Hl Hs]. split; [done|]. by intros ?%list_elem_of_singleton.
  - intros [Hl Hs]. split; [done|]. intros Heq. apply Hs.
    by apply list_elem_of_singleton.
Qed.

Lemma destroy_loop_spec (junk : ALLEGRO_EVENT) (srcs : list source_ptr) :
  ∀ (fuel : nat) (q : ALLEGRO_EVENT_QUEUE) (log : list callout),
    sources q = srcs → in_range q → NoDup srcs → length srcs < fuel →
    ∃ q',
      destroy_loop junk fuel q log
      = Some (q', log ++ (on_unregistration_from_queue <$> reverse srcs))
      ∧ sources q' = []
      ∧ in_range q'
      ∧ live q' = filter (λ e, any_source e ∉ srcs) (live q).
Proof.
  induction srcs as [|s l IH] using rev_ind;
    intros fuel q log Hsrc Hr Hnd Hfuel;
    (destruct fuel as [|fuel]; [simpl in Hfuel; lia|]);
    cbn [destroy_loop]; rewrite Hsrc.
  - exists q. simpl. rewrite app_nil_r. split; [done|]. split; [done|].
    split; [done|]. symmetry. apply filter_all. intros e.
    apply not_elem_of_nil.
  - apply NoDup_app in Hnd as (Hndl & Hdisj & _).
    assert (Hs : s ∉ l).
    { intros Hin. apply (Hdisj s Hin). apply list_elem_of_here. }
    unfold _al_vector_is_nonempty, _al_vector_ref_back, _al_vector_size.
    rewrite length_app. simpl.
    rewrite bool_decide_eq_false_2 by lia. cbn [negb].
    rewrite _al_vector_ref_Some by (rewrite length_app; simpl; lia).
    cbn [mbind option_bind].
    replace (length l + 1 - 1) with (length l) by lia.
    rewrite (load_Some (l ++ [s]) (length l) s)
      by by apply list_lookup_middle.
    cbn [mbind option_bind].
    destruct (al_unregister_event_source_present junk q s Hr)
      as (q1 & Hun & Hr1 & Hlive1 & Hsrc1).
    { rewrite Hsrc. apply elem_of_app. right. apply list_elem_of_here. }
    rewrite Hun. cbn [mbind option_bind].
    rewrite Hsrc, _al_vector_find_and_delete_snoc in Hsrc1 by done.
    simpl in Hsrc1.
    destruct (IH fuel q1 (log ++ [on_unregistration_from_queue s])
                Hsrc1 Hr1 Hndl)
      as (q' & Hrun & Hsrc' & Hr' & Hlive').
    { rewrite length_app in Hfuel. simpl in Hfuel. lia. }
    exists q'. split.
    { rewrite Hrun. f_equal. f_equal.
      rewrite reverse_snoc, fmap_cons, <- app_assoc. done. }
    split; [done|]. split; [done|].
    by rewrite Hlive', Hlive1, kept_then_filter.
Qed.

(** X12, [al_destroy_event_queue].  With a registry that holds no source
    twice the loop of the function ends; it unregisters every registered
    source, the last registered first, notifying each one once, and leaves
    the registry empty.  The events left unread are those of sources that
    were not registered. *)
Theorem destroy_unregisters_every_source (junk : ALLEGRO_EVENT)
  (q : ALLEGRO_EVENT_QUEUE) :
  in_range q → NoDup (sources q) →
  ∃ q',
    al_destroy_event_queue junk q
    = Some (q', on_unregistration_from_queue <$> reverse (sources q))
    ∧ sources q' = []
    ∧ live q' = filter (λ e, any_source e ∉ sources q) (live q).
Proof.
  intros Hr Hnd. unfold al_destroy_event_queue, _al_vector_size.
  destruct (destroy_loop_spec junk (sources q) (S (length (sources q))) q []
              eq_refl Hr Hnd)
    as (q' & Hrun & Hsrc & _ & Hlive); [lia|].
  exists q'. done.
Qed.

Lemma destroy_unregisters_every_source_witness :
  in_range stranger_queue ∧ NoDup (sources stranger_queue)
  ∧ ∃ q',
      al_destroy_event_queue blank_event stranger_queue
      = Some (q', [on_unregistration_from_queue 2;
                   on_unregistration_from_queue 1])
      ∧ sources q' = []
      ∧ live q' = filter (λ e, any_source e ∉ sources stranger_queue)
                    (live stranger_queue).
Proof.
  assert (Hr : in_range stranger_queue) by (split; simpl; lia).
  assert (Hnd : NoDup (sources stranger_queue)).
  { apply (bool_decide_unpack _). vm_compute. exact I. }
  split; [exact Hr|]. split; [exact Hnd|].
  exact (destroy_unregisters_every_source blank_event stranger_queue Hr Hnd).
Defined.

(** X13, the assertion of [al_destroy_event_queue].  When the vectors are
    freed the buffer is empty, as [ASSERT(queue->events_head ==
    queue->events_tail)] says, exactly when every unread event came from a
    registered source: an event pushed by a source that is not registered
    is still in the buffer. *)
Theorem destroy_leaves_buffer_empty_iff (junk : ALLEGRO_EVENT)
  (q : ALLEGRO_EVENT_QUEUE) :
  in_range q → NoDup (sources q) →
  ∃ q' log,
    al_destroy_event_queue junk q = Some (q', log)
    ∧ (events_head q' = events_tail q'
       ↔ ∀ e, e ∈ live q → any_source e ∈ sources q).
Proof.
  intros Hr Hnd. unfold al_destroy_event_queue, _al_vector_size.
  destruct (destroy_loop_spec junk (sources q) (S (length (sources q))) q []
              eq_refl Hr Hnd)
    as (q' & Hrun & _ & Hr' & Hlive); [lia|].
  eexists q', _. split; [exact Hrun|]. split.
  - intros Heq e He. apply live_empty in Heq. rewrite Hlive in Heq.
    destruct (decide (any_source e ∈ sources q)) as [|Hout]; [done|].
    assert (Hin : e ∈ filter (λ e, any_source e ∉ sources q) (live q)).
    { by apply list_elem_of_filter. }
    rewrite Heq in Hin. by apply elem_of_nil in Hin.
  - intros Hall.
    destruct (decide (events_head q' = events_tail q')) as [|Hne]; [done|].
    apply (live_nonempty q' Hr') in Hne.
    destruct (live q') as [|e l] eqn:Hl; [done|].
    assert (Hin : e ∈ filter (λ e, any_source e ∉ sources q) (live q)).
    { rewrite <- Hlive. apply list_elem_of_here. }
    apply list_elem_of_filter in Hin as [Hout Hin].
    by specialize (Hall e Hin).
Qed.

Lemma destroy_leaves_buffer_empty_iff_witness :
  in_range stranger_queue ∧ NoDup (sources stranger_queue)
  ∧ ∃ q' log,
      al_destroy_event_queue blank_event stranger_queue = Some (q', log)
      ∧ (events_head q' = events_tail q'
         ↔ ∀ e, e ∈ live stranger_queue
                → any_source e ∈ sources stranger_queue).
Proof.
  assert (Hr : in_range stranger_queue) by (split; simpl; lia).
  assert (Hnd : NoDup (sources stranger_queue)).
  { apply (bool_decide_unpack _). vm_compute. exact I. }
  split; [exact Hr|]. split; [exact Hnd|].
  exact (destroy_leaves_buffer_empty_iff blank_event stranger_queue Hr Hnd).
Defined.

Example destroy_with_stranger_event :
  al_destroy_event_queue blank_event stranger_queue
  = Some ({| sources := [];
             events := [sample_event 7 10; blank_event];
             events_head := 1; events_tail := 0 |},
          [on_unregistration_from_queue 2; on_unregistration_from_queue 1]).
Proof. reflexivity. Qed.


(** *** Waiting *)

Lemma wait_loop_spec
  (cond_wait : nat → ALLEGRO_EVENT_QUEUE → ALLEGRO_EVENT_QUEUE)
  (q : ALLEGRO_EVENT_QUEUE) (n : nat) :
  ∀ (fuel k : nat),
    k ≤ n →
    (∀ i, k ≤ i → i < n →
          al_event_queue_is_empty (woken_queue cond_wait i q) = true) →
    al_event_queue_is_empty (woken_queue cond_wait n q) = false →
    n - k < fuel →
    wait_loop cond_wait fuel (woken_queue cond_wait k q) k
    = Some (woken_queue cond_wait n q, n).
Proof.
  induction fuel as [|fuel IH]; intros k Hk Hempty Hn Hfuel; [lia|].
  cbn [wait_loop].
  destruct (decide (k = n)) as [->|Hne].
  - by rewrite Hn.
  - rewrite Hempty by lia.
    change (cond_wait k (woken_queue cond_wait k q))
      with (woken_queue cond_wait (S k) q).
    apply IH; [lia| |done|lia].
    intros i Hi1 Hi2. apply Hempty; lia.
Qed.

Lemma do_wait_loop_spec
  (timedwait : ALLEGRO_TIMEOUT → nat → ALLEGRO_EVENT_QUEUE
               → Z * ALLEGRO_EVENT_QUEUE)
  (timeout : ALLEGRO_TIMEOUT) (q : ALLEGRO_EVENT_QUEUE) (n : nat) :
  ∀ (fuel k : nat),
    k ≤ n →
    (∀ i, k ≤ i → i < n →
          al_event_queue_is_empty (timed_trace timedwait timeout i q).2 = true
          ∧ (timed_trace timedwait timeout i q).1 ≠ (-1)%Z) →
    (al_event_queue_is_empty (timed_trace timedwait timeout n q).2 = false
     ∨ (timed_trace timedwait timeout n q).1 = (-1)%Z) →
    n - k < fuel →
    do_wait_loop timedwait fuel timeout
      (timed_trace timedwait timeout k q).2
      (timed_trace timedwait timeout k q).1 k
    = Some ((timed_trace timedwait timeout n q).1,
            (timed_trace timedwait timeout n q).2, n).
Proof.
  induction fuel as [|fuel IH]; intros k Hk Hgo Hstop Hfuel; [lia|].
  cbn [do_wait_loop].
  destruct (decide (k = n)) as [->|Hne].
  - destruct Hstop as [Hstop|Hstop]; rewrite Hstop.
    + done.
    + by rewrite andb_false_r.
  - destruct (Hgo k) as [Hempty Hres]; [lia|lia|].
    rewrite Hempty. apply Z.eqb_neq in Hres. rewrite Hres. cbn [andb negb].
    specialize (IH (S k)). cbn [timed_trace] in IH.
    destruct (timedwait timeout k (timed_trace timedwait timeout k q).2)
      as [r1 q1] eqn:Hw.
    apply IH; [lia| |done|lia].
    intros i Hi1 Hi2. apply Hgo; lia.
Qed.

(** X14, [al_wait_for_event].  Let the thread wake [n] times, finding the
    queue empty at the start and on each waking but the last.  Then the
    call returns after exactly [n] waits: a waking that finds the queue
    empty makes it wait again.  With a buffer it takes the oldest event of
    the queue found on the last waking out into the buffer; with NULL it
    leaves that queue as it is. *)
Theorem wait_for_event_returns_first_event
  (cond_wait : nat → ALLEGRO_EVENT_QUEUE → ALLEGRO_EVENT_QUEUE)
  (fuel : nat) (q : ALLEGRO_EVENT_QUEUE)
  (ret_event : option ALLEGRO_EVENT) (n : nat) :
  (∀ i, i < n → al_event_queue_is_empty (woken_queue cond_wait i q) = true) →
  al_event_queue_is_empty (woken_queue cond_wait n q) = false →
  in_range (woken_queue cond_wait n q) → n < fuel →
  ∃ e q',
    q' = set_tail (woken_queue cond_wait n q)
           ((events_tail (woken_queue cond_wait n q) + 1)
            mod capacity (woken_queue cond_wait n q))
    ∧ live (woken_queue cond_wait n q) = e :: live q'
    ∧ al_wait_for_event cond_wait fuel q ret_event
      = match ret_event with
        | Some _ => Some (Some e, q', n)
        | None => Some (None, woken_queue cond_wait n q, n)
        end.
Proof.
  intros Hempty Hn Hr Hfuel. unfold al_wait_for_event.
  pose proof (wait_loop_spec cond_wait q n fuel 0) as Hloop.
  cbn [woken_queue] in Hloop.
  rewrite Hloop; [|lia| |done|lia].
  2:{ intros i _ Hi. by apply Hempty. }
  cbn [mbind option_bind].
  apply bool_decide_eq_false_1 in Hn.
  destruct (live_cons _ Hr Hn) as (e & He & Hcons).
  eexists e, _. split; [done|]. split; [done|].
  destruct ret_event as [b|]; [|done].
  rewrite get_next_event_if_any_nonempty by done.
  cbn [mbind option_bind]. simpl.
  by rewrite (load_Some _ _ _ He).
Qed.

Lemma wait_for_event_returns_first_event_witness :
  (∀ i, i < 2 →
        al_event_queue_is_empty
          (woken_queue spurious_cond_wait i
             (al_create_event_queue blank_event)) = true)
  ∧ al_event_queue_is_empty
      (woken_queue spurious_cond_wait 2
         (al_create_event_queue blank_event)) = false
  ∧ in_range (woken_queue spurious_cond_wait 2
                (al_create_event_queue blank_event))
  ∧ 2 < 3
  ∧ ∃ e q',
      q' = set_tail (woken_queue spurious_cond_wait 2
                       (al_create_event_queue blank_event)) (1 mod 2)
      ∧ live (woken_queue spurious_cond_wait 2
                (al_create_event_queue blank_event)) = e :: live q'
      ∧ al_wait_for_event spurious_cond_wait 3
          (al_create_event_queue blank_event) (Some blank_event)
        = Some (Some e, q', 2).
Proof.
  assert (Hempty : ∀ i, i < 2 →
            al_event_queue_is_empty
              (woken_queue spurious_cond_wait i
                 (al_create_event_queue blank_event)) = true).
  { intros [|[|i]] Hi; [reflexivity|reflexivity|lia]. }
  assert (Hn : al_event_queue_is_empty
                 (woken_queue spurious_cond_wait 2
                    (al_create_event_queue blank_event)) = false)
    by reflexivity.
  assert (Hr : in_range (woken_queue spurious_cond_wait 2
                           (al_create_event_queue blank_event))).
  { split; simpl; lia. }
  assert (Hfuel : 2 < 3) by lia.
  split; [exact Hempty|]. split; [exact Hn|]. split; [exact Hr|].
  split; [exact Hfuel|].
  exact (wait_for_event_returns_first_event spurious_cond_wait 3
           (al_create_event_queue blank_event) (Some blank_event) 2
           Hempty Hn Hr Hfuel).
Defined.

(** X15, a wait that times out.  Let the waits of
    [al_wait_for_event_until] before the [n]-th wake on an empty queue
    without a timeout, and let the [n]-th report a timeout (-1).  Then the
    call returns false after [n] waits and takes nothing: the buffer is as
    it was and the queue is the one that wait left, also when an event has
    arrived in it meanwhile. *)
Theorem wait_until_timeout_takes_nothing
  (timedwait : ALLEGRO_TIMEOUT → nat → ALLEGRO_EVENT_QUEUE
               → Z * ALLEGRO_EVENT_QUEUE)
  (fuel : nat) (q : ALLEGRO_EVENT_QUEUE)
  (ret_event : option ALLEGRO_EVENT) (timeout : ALLEGRO_TIMEOUT) (n : nat) :
  (∀ i, i < n →
        al_event_queue_is_empty (timed_trace timedwait timeout i q).2 = true
        ∧ (timed_trace timedwait timeout i q).1 ≠ (-1)%Z) →
  (timed_trace timedwait timeout n q).1 = (-1)%Z →
  n < fuel →
  al_wait_for_event_until timedwait fuel q ret_event timeout
  = Some (false, ret_event, (timed_trace timedwait timeout n q).2, n).
Proof.
  intros Hgo Hstop Hfuel.
  unfold al_wait_for_event_until, do_wait_for_event.
  pose proof (do_wait_loop_spec timedwait timeout q n fuel 0) as Hloop.
  simpl in Hloop.
  rewrite Hloop; [|lia| |by right|lia].
  2:{ intros i _ Hi. by apply Hgo. }
  cbn [mbind option_bind]. by rewrite Hstop.
Qed.

Lemma wait_until_timeout_takes_nothing_witness :
  (∀ i, i < 1 →
        al_event_queue_is_empty
          (timed_trace racing_timedwait (al_init_timeout 1) i
             (al_create_event_queue blank_event)).2 = true
        ∧ (timed_trace racing_timedwait (al_init_timeout 1) i
             (al_create_event_queue blank_event)).1 ≠ (-1)%Z)
  ∧ (timed_trace racing_timedwait (al_init_timeout 1) 1
       (al_create_event_queue blank_event)).1 = (-1)%Z
  ∧ 1 < 2
  ∧ al_wait_for_event_until racing_timedwait 2
      (al_create_event_queue blank_event) (Some blank_event)
      (al_init_timeout 1)
    = Some (false, Some blank_event,
            {| sources := []; events := [sample_event 1 10; blank_event];
               events_head := 1; events_tail := 0 |}, 1).
Proof.
  assert (Hgo : ∀ i, i < 1 →
            al_event_queue_is_empty
              (timed_trace racing_timedwait (al_init_timeout 1) i
                 (al_create_event_queue blank_event)).2 = true
            ∧ (timed_trace racing_timedwait (al_init_timeout 1) i
                 (al_create_event_queue blank_event)).1 ≠ (-1)%Z).
  { intros [|i] Hi; [|lia]. split; [reflexivity|]. simpl. lia. }
  assert (Hstop : (timed_trace racing_timedwait (al_init_timeout 1) 1
                     (al_create_event_queue blank_event)).1 = (-1)%Z)
    by reflexivity.
  assert (Hfuel : 1 < 2) by lia.
  split; [exact Hgo|]. split; [exact Hstop|]. split; [exact Hfuel|].
  exact (wait_until_timeout_takes_nothing racing_timedwait 2
           (al_create_event_queue blank_event) (Some blank_event)
           (al_init_timeout 1) 1 Hgo Hstop Hfuel).
Defined.

(** X16, a wait that is signalled in time.  Let the waits of
    [al_wait_for_event_until] before the [n]-th wake on an empty queue
    without a timeout, and let the [n]-th leave a queue that is not empty
    without reporting a timeout.  Then the call returns true after [n]
    waits; with a buffer it takes the oldest event of that queue out into
    the buffer, with NULL it leaves that queue as it is. *)
Theorem wait_until_returns_first_event
  (timedwait : ALLEGRO_TIMEOUT → nat → ALLEGRO_EVENT_QUEUE
               → Z * ALLEGRO_EVENT_QUEUE)
  (fuel : nat) (q : ALLEGRO_EVENT_QUEUE)
  (ret_event : option ALLEGRO_EVENT) (timeout : ALLEGRO_TIMEOUT) (n : nat) :
  (∀ i, i < n →
        al_event_queue_is_empty (timed_trace timedwait timeout i q).2 = true
        ∧ (timed_trace timedwait timeout i q).1 ≠ (-1)%Z) →
  (timed_trace timedwait timeout n q).1 ≠ (-1)%Z →
  al_event_queue_is_empty (timed_trace timedwait timeout n q).2 = false →
  in_range (timed_trace timedwait timeout n q).2 →
  n < fuel →
  ∃ e q',
    q' = set_tail (timed_trace timedwait timeout n q).2
           ((events_tail (timed_trace timedwait timeout n q).2 + 1)
            mod capacity (timed_trace timedwait timeout n q).2)
    ∧ live (timed_trace timedwait timeout n q).2 = e :: live q'
    ∧ al_wait_for_event_until timedwait fuel q ret_event timeout
      = match ret_event with
        | Some _ => Some (true, Some e, q', n)
        | None =>
            Some (true, None, (timed_trace timedwait timeout n q).2, n)
        end.
Proof.
  intros Hgo Hres Hn Hr Hfuel.
  unfold al_wait_for_event_until, do_wait_for_event.
  pose proof (do_wait_loop_spec timedwait timeout q n fuel 0) as Hloop.
  simpl in Hloop.
  rewrite Hloop; [|lia| |by left|lia].
  2:{ intros i _ Hi. by apply Hgo. }
  cbn [mbind option_bind].
  apply Z.eqb_neq in Hres. rewrite Hres.
  apply bool_decide_eq_false_1 in Hn.
  destruct (live_cons _ Hr Hn) as (e & He & Hcons).
  eexists e, _. split; [done|]. split; [done|].
  destruct ret_event as [b|]; [|done].
  rewrite get_next_event_if_any_nonempty by done.
  cbn [mbind option_bind]. simpl.
  by rewrite (load_Some _ _ _ He).
Qed.

Lemma wait_until_returns_first_event_witness :
  (∀ i, i < 2 →
        al_event_queue_is_empty
          (timed_trace signalled_timedwait (al_init_timeout 1) i
             (al_create_event_queue blank_event)).2 = true
        ∧ (timed_trace signalled_timedwait (al_init_timeout 1) i
             (al_create_event_queue blank_event)).1 ≠ (-1)%Z)
  ∧ (timed_trace signalled_timedwait (al_init_timeout 1) 2
       (al_create_event_queue blank_event)).1 ≠ (-1)%Z
  ∧ al_event_queue_is_empty
      (timed_trace signalled_timedwait (al_init_timeout 1) 2
         (al_create_event_queue blank_event)).2 = false
  ∧ in_range (timed_trace signalled_timedwait (al_init_timeout 1) 2
                (al_create_event_queue blank_event)).2
  ∧ 2 < 3
  ∧ ∃ e q',
      q' = set_tail (timed_trace signalled_timedwait (al_init_timeout 1) 2
                       (al_create_event_queue blank_event)).2 (1 mod 2)
      ∧ live (timed_trace signalled_timedwait (al_init_timeout 1) 2
                (al_create_event_queue blank_event)).2 = e :: live q'
      ∧ al_wait_for_event_until signalled_timedwait 3
          (al_create_event_queue blank_event) (Some blank_event)
          (al_init_timeout 1)
        = Some (true, Some e, q', 2).
Proof.
  assert (Hgo : ∀ i, i < 2 →
            al_event_queue_is_empty
              (timed_trace signalled_timedwait (al_init_timeout 1) i
                 (al_create_event_queue blank_event)).2 = true
            ∧ (timed_trace signalled_timedwait (al_init_timeout 1) i
                 (al_create_event_queue blank_event)).1 ≠ (-1)%Z).
  { intros [|[|i]] Hi; [| |lia]; (split; [reflexivity|simpl; lia]). }
  assert (Hres : (timed_trace signalled_timedwait (al_init_timeout 1) 2
                    (al_create_event_queue blank_event)).1 ≠ (-1)%Z).
  { simpl. lia. }
  assert (Hn : al_event_queue_is_empty
                 (timed_trace signalled_timedwait (al_init_timeout 1) 2
                    (al_create_event_queue blank_event)).2 = false)
    by reflexivity.
  assert (Hr : in_range (timed_trace signalled_timedwait (al_init_timeout 1) 2
                           (al_create_event_queue blank_event)).2).
  { split; simpl; lia. }
  assert (Hfuel : 2 < 3) by lia.
  split; [exact Hgo|]. split; [exact Hres|]. split; [exact Hn|].
  split; [exact Hr|]. split; [exact Hfuel|].
  exact (wait_until_returns_first_event signalled_timedwait 3
           (al_create_event_queue blank_event) (Some blank_event)
           (al_init_timeout 1) 2 Hgo Hres Hn Hr Hfuel).
Defined.

(** X17, a timed wait on a queue that is not empty.  Whatever the number
    of seconds and whatever the wait primitive would do,
    [al_wait_for_event_timed] on a queue that is not empty returns true
    without waiting; with a buffer it takes the oldest event out into the
    buffer, with NULL it leaves the queue as it is. *)
Theorem timed_wait_nonempty_never_waits
  (timedwait : ALLEGRO_TIMEOUT → nat → ALLEGRO_EVENT_QUEUE
               → Z * ALLEGRO_EVENT_QUEUE)
  (fuel : nat) (q : ALLEGRO_EVENT_QUEUE)
  (ret_event : option ALLEGRO_EVENT) (secs : float) :
  in_range q → al_event_queue_is_empty q = false → 1 ≤ fuel →
  ∃ e q',
    q' = set_tail q ((events_tail q + 1) mod capacity q)
    ∧ live q = e :: live q'
    ∧ al_wait_for_event_timed timedwait fuel q ret_event secs
      = match ret_event with
        | Some _ => Some (true, Some e, q', 0)
        | None => Some (true, None, q, 0)
        end.
Proof.
  intros Hr Hn Hfuel. destruct fuel as [|fuel]; [lia|].
  unfold al_wait_for_event_timed, do_wait_for_event.
  cbn [do_wait_loop]. rewrite Hn. cbn [andb mbind option_bind Z.eqb].
  apply bool_decide_eq_false_1 in Hn.
  destruct (live_cons q Hr Hn) as (e & He & Hcons).
  eexists e, _. split; [done|]. split; [done|].
  destruct ret_event as [b|]; [|done].
  rewrite get_next_event_if_any_nonempty by done.
  cbn [mbind option_bind]. simpl.
  by rewrite (load_Some _ _ _ He).
Qed.

Lemma timed_wait_nonempty_never_waits_witness :
  in_range wrapped_queue ∧ al_event_queue_is_empty wrapped_queue = false
  ∧ 1 ≤ 1
  ∧ ∃ e q',
      q' = set_tail wrapped_queue ((events_tail wrapped_queue + 1) mod 4)
      ∧ live wrapped_queue = e :: live q'
      ∧ al_wait_for_event_timed racing_timedwait 1 wrapped_queue
          (Some blank_event) 5%float
        = Some (true, Some e, q', 0).
Proof.
  assert (Hr : in_range wrapped_queue) by (split; simpl; lia).
  assert (Hn : al_event_queue_is_empty wrapped_queue = false) by reflexivity.
  assert (Hfuel : 1 ≤ 1) by lia.
  split; [exact Hr|]. split; [exact Hn|]. split; [exact Hfuel|].
  exact (timed_wait_nonempty_never_waits racing_timedwait 1 wrapped_queue
           (Some blank_event) 5%float Hr Hn Hfuel).
Defined.

(** *** Capacity *)

Lemma pot_unique (x m : nat) :
  is_power_of_two m → x ≤ m → (m = 1 ∨ m < 2 * x) → pot x = m.
Proof.
  intros Hm Hle Hmin. apply Nat.le_antisymm; [by apply pot_least|].
  pose proof (pot_fits x) as Hfit.
  destruct Hm as [k ->]. destruct (pot_power_of_two x) as [j Hj].
  rewrite Hj in *.
  assert (0 < 2 ^ j) by (apply Nat.neq_0_lt_0, Nat.pow_nonzero; lia).
  destruct Hmin as [Hone|Hlt]; [lia|].
  destruct (decide (k ≤ j)) as [Hkj|Hkj].
  - apply Nat.pow_le_mono_r; lia.
  - assert (2 ^ (S j) ≤ 2 ^ k) by (apply Nat.pow_le_mono_r; lia).
    simpl in *. lia.
Qed.

(** Pushes into a queue that has never given an event out. *)
Lemma push_events_fill (junk : ALLEGRO_EVENT) (es : list ALLEGRO_EVENT) :
  ∀ q : ALLEGRO_EVENT_QUEUE,
    in_range q → events_tail q = 0 →
    is_power_of_two (capacity q) →
    (capacity q = 1 ∨ capacity q < 2 * (events_head q + 1)) →
    ∃ q',
      push_events junk q es = Some q'
      ∧ in_range q'
      ∧ events_tail q' = 0
      ∧ is_power_of_two (capacity q')
      ∧ (capacity q' = 1 ∨ capacity q' < 2 * (events_head q' + 1))
      ∧ live q' = live q ++ es
      ∧ events_head q' = events_head q + length es.
Proof.
  induction es as [|e es IH]; intros q Hr Htail Hpow Hmin;
    cbn [push_events length].
  - exists q. rewrite app_nil_r, Nat.add_0_r. done.
  - pose proof Hr as [Hh Ht].
    destruct (_al_event_queue_push_event_spec junk q e Hr)
      as (q1 & Hpush & Hr1 & Hlive1 & _ & Htail1 & Hcap1).
    rewrite Hpush. cbn [mbind option_bind].
    rewrite Htail in Htail1.
    assert (Hhead1 : events_head q1 = events_head q + 1).
    { pose proof (f_equal length Hlive1) as Hlen.
      rewrite length_app, !length_live in Hlen by done.
      rewrite Htail, Htail1 in Hlen. simpl in Hlen.
      repeat case_decide; lia. }
    assert (Hfull : is_full q ↔ events_head q + 1 = capacity q).
    { unfold is_full. rewrite circ_next_lt, Htail by done.
      destruct (decide (events_head q + 1 = capacity q)); lia. }
    destruct (IH q1 Hr1 Htail1) as (q' & Hrun & Hr' & Htail' & Hpow' & Hmin'
                                    & Hlive' & Hhead').
    { rewrite Hcap1. case_decide; [by apply is_power_of_two_double|done]. }
    { rewrite Hcap1, Hhead1. case_decide as Hf.
      - apply Hfull in Hf. right. lia.
      - right. destruct Hmin as [Hone|Hlt]; [|lia].
        exfalso. apply Hf, Hfull. lia. }
    exists q'. repeat (split; [done|]). split.
    + by rewrite Hlive', Hlive1, <- app_assoc.
    + rewrite Hhead', Hhead1. lia.
Qed.

(** X18, filling a new queue.  [n] pushes into a queue just created
    return and leave the events in the slots 0 to [n - 1], in their order,
    with [events_tail] 0 and [events_head] [n]; the array then has the
    smallest power of two that is at least [n + 1] as its size. *)
Theorem push_events_into_new_queue (junk : ALLEGRO_EVENT)
  (es : list ALLEGRO_EVENT) :
  ∃ q',
    push_events junk (al_create_event_queue junk) es = Some q'
    ∧ events_tail q' = 0
    ∧ events_head q' = length es
    ∧ take (length es) (events q') = es
    ∧ capacity q' = pot (length es + 1).
Proof.
  destruct (push_events_fill junk es (al_create_event_queue junk))
    as (q' & Hrun & Hr' & Htail' & Hpow' & Hmin' & Hlive' & Hhead').
  { split; simpl; lia. }
  { done. }
  { by exists 0. }
  { by left. }
  simpl in Hlive', Hhead'. pose proof Hr' as [Hh Ht].
  exists q'. split; [done|]. split; [done|]. split; [done|]. split.
  - unfold live in Hlive'. rewrite Htail', decide_True in Hlive' by lia.
    by rewrite Nat.sub_0_r, drop_0, Hhead' in Hlive'.
  - symmetry. apply pot_unique; [done|lia|].
    destruct Hmin' as [?|?]; [by left|right; lia].
Qed.

(** X19, capacity.  On a queue that satisfies the invariant of the
    circular buffer the array shrinks only through
    [discard_events_of_source], called directly or by
    [al_unregister_event_source], which never grows it; push, get, peek,
    drop, flush and register never make it smaller, and all but push leave
    its size as it is. *)
Theorem capacity_shrinks_only_by_discard (junk : ALLEGRO_EVENT)
  (op : queue_op) (q q' : ALLEGRO_EVENT_QUEUE) :
  circular_buffer_invariant q → run_op junk op q = Some q' →
  match op with
  | op_discard _ | op_unregister _ => capacity q' ≤ capacity q
  | op_push _ => capacity q ≤ capacity q'
  | _ => capacity q' = capacity q
  end.
Proof.
  intros Hinv Hrun. pose proof (invariant_in_range q Hinv) as Hr.
  pose proof (inv_power_of_two q Hinv) as Hpow.
  assert (Hdeq : ∀ do_copy delete r b q1,
            get_peek_or_drop_next_event q do_copy delete = Some (r, b, q1) →
            capacity q1 = capacity q).
  { intros do_copy delete r b q1 Hget.
    destruct (get_peek_or_drop_list q do_copy delete Hr)
      as (r' & b' & q2 & Hget' & _ & _ & Hev & _).
    rewrite Hget in Hget'. injection Hget' as _ _ ->. by rewrite Hev. }
  assert (Hdis : ∀ (v : list source_ptr) (source : source_ptr),
            capacity (discarded junk (set_sources q v) source) ≤ capacity q).
  { intros v source.
    assert (Hr1 : in_range (set_sources q v)) by done.
    destruct (decide (source ∈ any_source <$> live (set_sources q v)))
      as [Hin|Hin].
    - destruct (discarded_spec junk (set_sources q v) source Hin)
        as (_ & _ & _ & _ & _ & Hcap).
      rewrite Hcap. apply pot_least; [done|].
      pose proof (length_live_lt _ Hr1) as Hlen. simpl in Hlen.
      pose proof (length_filter (λ e, any_source e ≠ source)
                    (live (set_sources q v))) as Hle.
      unfold kept. lia.
    - by rewrite discarded_absent. }
  destruct op as [e|ret_event|ret_event| | |source|source|source];
    simpl in Hrun.
  - destruct (_al_event_queue_push_event_spec junk q e Hr)
      as (q1 & Hpush & _ & _ & _ & _ & Hcap).
    rewrite Hrun in Hpush. injection Hpush as <-. rewrite Hcap.
    case_decide; lia.
  - unfold al_get_next_event in Hrun.
    destruct (get_peek_or_drop_next_event q ret_event true)
      as [[[r b] q1]|] eqn:Hget; [|done].
    simpl in Hrun. injection Hrun as <-. by eapply Hdeq.
  - unfold al_peek_next_event in Hrun.
    destruct (get_peek_or_drop_next_event q ret_event false)
      as [[[r b] q1]|] eqn:Hget; [|done].
    simpl in Hrun. injection Hrun as <-. by eapply Hdeq.
  - unfold al_drop_next_event in Hrun.
    destruct (get_peek_or_drop_next_event q None true)
      as [[[r b] q1]|] eqn:Hget; [|done].
    simpl in Hrun. injection Hrun as <-. by eapply Hdeq.
  - by injection Hrun as <-.
  - rewrite discard_events_of_source_spec in Hrun by done.
    injection Hrun as <-.
    replace q with (set_sources q (sources q)) at 1 by by destruct q.
    apply Hdis.
  - injection Hrun as <-. unfold al_register_event_source.
    by case_match.
  - unfold al_unregister_event_source in Hrun.
    destruct (_al_vector_find_and_delete (sources q) source) as [found v].
    destruct found.
    + rewrite discard_events_of_source_spec in Hrun by done.
      simpl in Hrun. injection Hrun as <-. apply Hdis.
    + simpl in Hrun. by injection Hrun as <-.
Qed.

Lemma capacity_shrinks_only_by_discard_witness :
  circular_buffer_invariant wrapped_queue
  ∧ run_op blank_event (op_discard 2) wrapped_queue
    = Some {| sources := [1; 2]%Z;
              events := [sample_event 1 10; blank_event];
              events_head := 1; events_tail := 0 |}
  ∧ 2 ≤ capacity wrapped_queue.
Proof.
  assert (Hinv : circular_buffer_invariant wrapped_queue).
  { split; simpl; [by exists 2|lia|lia|lia|].
    vm_compute. discriminate. }
  assert (Hrun : run_op blank_event (op_discard 2) wrapped_queue
                 = Some {| sources := [1; 2]%Z;
                           events := [sample_event 1 10; blank_event];
                           events_head := 1; events_tail := 0 |})
    by reflexivity.
  split; [exact Hinv|]. split; [exact Hrun|].
  exact (capacity_shrinks_only_by_discard blank_event (op_discard 2)
           wrapped_queue _ Hinv Hrun).
Defined.

(** *** Getting more than there is *)

Lemma get_events_empty (k : nat) (q : ALLEGRO_EVENT_QUEUE)
  (buf : ALLEGRO_EVENT) :
  events_head q = events_tail q →
  get_events k q (Some buf) = Some (replicate k (false, Some buf), q).
Proof.
  intros Hempty. induction k as [|k IH]; simpl; [done|].
  unfold al_get_next_event. rewrite get_peek_or_drop_empty by done.
  cbn [mbind option_bind]. by rewrite IH.
Qed.

Lemma get_events_past_the_end_aux (k : nat) (l : list ALLEGRO_EVENT) :
  ∀ (q : ALLEGRO_EVENT_QUEUE) (buf : ALLEGRO_EVENT),
    in_range q → live q = l →
    ∃ q',
      get_events (length l + k) q (Some buf)
      = Some (((λ e, (true, Some e)) <$> l)
              ++ replicate k (false, Some (default buf (last l))), q')
      ∧ events_head q' = events_tail q'
      ∧ events q' = events q
      ∧ events_head q' = events_head q.
Proof.
  induction l as [|e l IH]; intros q buf Hr Hlive.
  - assert (Hempty : events_head q = events_tail q).
    { destruct (decide (events_head q = events_tail q)) as [|Hne]; [done|].
      by apply (live_nonempty q Hr) in Hne. }
    exists q. simpl. by rewrite get_events_empty.
  - destruct (get_peek_or_drop_live q (Some buf) true e l Hr Hlive)
      as (Hget & Hr1 & Hlive1).
    cbn [length Nat.add get_events].
    unfold al_get_next_event. rewrite Hget. cbn [mbind option_bind].
    destruct (IH _ e Hr1 Hlive1) as (q' & Hrun & Hempty & Hev & Hhead).
    rewrite Hrun. cbn [mbind option_bind].
    exists q'. split; [|done].
    rewrite fmap_cons. simpl.
    assert (Hd : default e (last l) = default buf (last (e :: l))).
    { destruct l as [|x l']; [done|]. rewrite last_cons_cons.
      destruct (last (x :: l')) eqn:Hl; [done|]. by apply last_None in Hl. }
    by rewrite Hd.
Qed.

(** X20, getting more than there is.  Calls of [al_get_next_event] on the
    same buffer return the unread events in their order and then return
    false for as long as nothing is pushed; the buffer keeps the last
    event handed out, or what it held at first when the queue was empty
    from the start.  The array and [events_head] are never changed by the
    calls. *)
Theorem get_events_past_the_end (k : nat) (q : ALLEGRO_EVENT_QUEUE)
  (buf : ALLEGRO_EVENT) :
  in_range q →
  ∃ q',
    get_events (length (live q) + k) q (Some buf)
    = Some (((λ e, (true, Some e)) <$> live q)
            ++ replicate k (false, Some (default buf (last (live q)))), q')
    ∧ al_event_queue_is_empty q' = true
    ∧ events q' = events q
    ∧ events_head q' = events_head q.
Proof.
  intros Hr.
  destruct (get_events_past_the_end_aux k (live q) q buf Hr eq_refl)
    as (q' & Hrun & Hempty & Hev & Hhead).
  exists q'. split; [done|]. split; [|done].
  unfold al_event_queue_is_empty. by apply bool_decide_eq_true_2.
Qed.

Lemma get_events_past_the_end_witness :
  in_range wrapped_queue
  ∧ ∃ q',
      get_events (3 + 2) wrapped_queue (Some blank_event)
      = Some ([(true, Some (sample_event 1 10));
               (true, Some (sample_event 2 20));
               (true, Some (sample_event 2 30));
               (false, Some (sample_event 2 30));
               (false, Some (sample_event 2 30))], q')
      ∧ al_event_queue_is_empty q' = true
      ∧ events q' = events wrapped_queue
      ∧ events_head q' = events_head wrapped_queue.
Proof.
  assert (Hr : in_range wrapped_queue) by (split; simpl; lia).
  split; [exact Hr|].
  exact (get_events_past_the_end 2 wrapped_queue blank_event Hr).
Defined.
